(** * Battery scheduling against buy and sell prices: the state-of-charge
      projection and the linear program built by [schedule_simple_battery]

    Source: [example_script.py].

    Numbers are rationals ([Q]): the program's quantities are reals, the
    linear program is stated over an ordered field, and [Q] keeps every
    definition executable.  Equalities between computed numbers are stated
    with [==] ([Qeq]); rounding of machine floats is not modelled.  Where the
    program computes on integers with numpy, the 64-bit wrap-around is
    written out ([compute_soc_schedule_int64]).

    Pyomo builds symbolic expressions from the rule functions; they are kept
    here as a small expression type ([Expr]) with two readings: [eval] under
    a complete assignment (the meaning of a constraint or objective for the
    solver) and [value] under the variables' current values, which raises
    when a variable holds no value (what [pyomo.environ.value] does). *)

From Stdlib Require Import List ZArith QArith Qfield Lia Lqa Bool.
Import ListNotations.

Open Scope Q_scope.

(** ** Exceptions and results *)

Inductive exn : Type :=
| ZeroDivisionError   (* division of an expression by the constant 0 *)
| ValueError          (* value() of a variable that holds no value *)
| ApplicationError    (* the solver could not be run *)
| InvalidConstraintError.
                      (* a constraint whose lower bound exceeds its upper bound *)

Inductive Result (A : Type) : Type :=
| Ok (a : A)
| Raise (e : exn).

Arguments Ok {A} a.
Arguments Raise {A} e.

Definition bind {A B : Type} (r : Result A) (k : A -> Result B) : Result B :=
  match r with
  | Ok a => k a
  | Raise e => Raise e
  end.

Notation "x <- r ;; k" := (bind r (fun x => k))
  (at level 61, r at next level, right associativity).

Fixpoint mapM {A B : Type} (f : A -> Result B) (l : list A) : Result (list B) :=
  match l with
  | [] => Ok []
  | a :: t => b <- f a ;; bs <- mapM f t ;; Ok (b :: bs)
  end.

(** ** Numeric helpers: Python's [sum], numpy's [cumsum] *)

(** Python's builtin [sum]: a left fold starting from 0. *)
Definition sum (l : list Q) : Q := fold_left Qplus l 0.

(** [np.cumsum]: [out[0] = a[0]], [out[i] = out[i-1] + a[i]]. *)
Fixpoint cumsum_from (acc : Q) (l : list Q) : list Q :=
  match l with
  | [] => []
  | x :: t => (acc + x) :: cumsum_from (acc + x) t
  end.

Definition cumsum (l : list Q) : list Q :=
  match l with
  | [] => []
  | x :: t => x :: cumsum_from x t
  end.

(** The finite sum [f 0 + ... + f (n-1)], used to state properties. *)
Fixpoint sigma (f : nat -> Q) (n : nat) : Q :=
  match n with
  | O => 0
  | S n' => sigma f n' + f n'
  end.

(** ** [compute_soc_schedule] *)

(** [[soc_start] + list(np.cumsum(power_schedule) + soc_start)], on a
    schedule of floats read as exact numbers (the values a solve returns). *)
Definition compute_soc_schedule (power_schedule : list Q) (soc_start : Q) : list Q :=
  [soc_start] ++ map (fun c => c + soc_start) (cumsum power_schedule).

(** *** On a schedule of integers

    numpy turns a list of Python ints into an [int64] array: the running
    sums of [np.cumsum] and the addition of [soc_start] are 64-bit
    two's-complement additions, which wrap around silently.  The inputs are
    ints that fit in 64 bits ([in_int64]). *)

Definition int64_min : Z := (- 2 ^ 63)%Z.
Definition int64_max : Z := (2 ^ 63 - 1)%Z.

Definition in_int64 (z : Z) : Prop := (int64_min <= z <= int64_max)%Z.

(** The 64-bit two's-complement value of an integer. *)
Definition wrap64 (z : Z) : Z := ((z + 2 ^ 63) mod 2 ^ 64 - 2 ^ 63)%Z.

(** Python's builtin [sum] on ints, which are unbounded. *)
Definition sum_int (l : list Z) : Z := fold_left Z.add l 0%Z.

(** [np.cumsum] on an [int64] array. *)
Fixpoint cumsum_int64_from (acc : Z) (l : list Z) : list Z :=
  match l with
  | [] => []
  | x :: t => wrap64 (acc + x) :: cumsum_int64_from (wrap64 (acc + x)) t
  end.

Definition cumsum_int64 (l : list Z) : list Z :=
  match l with
  | [] => []
  | x :: t => x :: cumsum_int64_from x t
  end.

Definition compute_soc_schedule_int64 (power_schedule : list Z) (soc_start : Z)
  : list Z :=
  [soc_start] ++ map (fun c => wrap64 (c + soc_start)) (cumsum_int64 power_schedule).

(** ** The part of Pyomo the script uses *)

Module Pyomo.

(** The three indexed variables of the model. *)
Inductive VarName : Type :=
| ems_power
| device_power_down
| device_power_up.

Inductive Domain : Type :=
| Reals
| NonNegativeReals
| NonPositiveReals.

(** Symbolic expressions over the variables. *)
Inductive Expr : Type :=
| Num (q : Q)
| Ref (x : VarName) (j : nat)      (* m.x[j] *)
| Add (a b : Expr)
| Sub (a b : Expr)
| Mul (a b : Expr)
| Div (a b : Expr).

(** A constraint rule returns the tuple [(lower, body, upper)]. *)
Definition Constraint : Type := (Q * Expr * Q)%type.

Inductive Sense : Type := minimize | maximize.

Inductive TerminationCondition : Type :=
| optimal
| infeasible
| unbounded
| infeasibleOrUnbounded
| maxTimeLimit
| error
| unknown.

(** A solution candidate gives a value to every declared variable. *)
Definition Solution : Type := VarName -> nat -> Q.

Record SolverResults : Type := {
  termination_condition : TerminationCondition;
  solution : list Solution
}.

(** The current value of each variable ([Var.value]); [None] is Python's
    [None], a variable without a value. *)
Definition Values : Type := VarName -> nat -> option Q.

Record ConcreteModel : Type := {
  j : list nat;                                  (* RangeSet *)
  domain : VarName -> Domain;
  initialize : VarName -> Q;
  device_power_up_bounds : list Constraint;
  device_power_equalities : list Constraint;
  device_energy_bounds : list Constraint;
  costs : Expr;
  sense : Sense
}.

(** [expr / c] for a numeric constant [c]: Pyomo raises on a zero
    divisor when the expression is built. *)
Definition div_const (e : Expr) (c : Q) : Result Expr :=
  if Qeq_bool c 0 then Raise ZeroDivisionError else Ok (Div e (Num c)).

(** A constraint tuple is refused when its constant lower bound exceeds its
    constant upper bound. *)
Definition check_bounds (c : Constraint) : Result Constraint :=
  let '(lower, body, upper) := c in
  if Qle_bool lower upper then Ok c else Raise InvalidConstraintError.

(** [Constraint(index, rule=rule)]: the rule is called for every index in
    order and each tuple it returns is checked. *)
Definition construct_constraints (rule : nat -> Result Constraint) (index : list nat)
  : Result (list Constraint) :=
  mapM (fun i => c <- rule i ;; check_bounds c) index.

(** Python's [sum] over a list of expressions: [0 + e0 + e1 + ...]. *)
Definition sum_expr (l : list Expr) : Expr := fold_left Add l (Num 0).

(** Meaning of an expression under a complete assignment. *)
Fixpoint eval (a : Solution) (e : Expr) : Q :=
  match e with
  | Num q => q
  | Ref x i => a x i
  | Add e1 e2 => eval a e1 + eval a e2
  | Sub e1 e2 => eval a e1 - eval a e2
  | Mul e1 e2 => eval a e1 * eval a e2
  | Div e1 e2 => eval a e1 / eval a e2
  end.

(** [pyomo.environ.value]: evaluates with the variables' current values
    and raises when one of them has none. *)
Fixpoint value (v : Values) (e : Expr) : Result Q :=
  match e with
  | Num q => Ok q
  | Ref x i => match v x i with Some q => Ok q | None => Raise ValueError end
  | Add e1 e2 => x <- value v e1 ;; y <- value v e2 ;; Ok (x + y)
  | Sub e1 e2 => x <- value v e1 ;; y <- value v e2 ;; Ok (x - y)
  | Mul e1 e2 => x <- value v e1 ;; y <- value v e2 ;; Ok (x * y)
  | Div e1 e2 =>
      x <- value v e1 ;; y <- value v e2 ;;
      if Qeq_bool y 0 then Raise ZeroDivisionError else Ok (x / y)
  end.

(** [Var(model.j, domain=..., initialize=c)]: every index of the set
    holds the initial value. *)
Definition initial_values (m : ConcreteModel) : Values :=
  fun x i => if existsb (Nat.eqb i) (j m) then Some (initialize m x) else None.

(** [model.solutions.load_from(results)]: the first candidate is written
    into the variables.  The script calls it only when there is one. *)
Definition load_from (m : ConcreteModel) (results : SolverResults) (v : Values) : Values :=
  match solution results with
  | s :: _ => fun x i => if existsb (Nat.eqb i) (j m) then Some (s x i) else None
  | [] => v
  end.

(** *** Feasibility and optimality of an assignment *)

Definition in_domain (d : Domain) (q : Q) : Prop :=
  match d with
  | Reals => True
  | NonNegativeReals => 0 <= q
  | NonPositiveReals => q <= 0
  end.

Definition satisfied (a : Solution) (c : Constraint) : Prop :=
  let '(lower, body, upper) := c in
  lower <= eval a body /\ eval a body <= upper.

Definition feasible (m : ConcreteModel) (a : Solution) : Prop :=
  (forall x i, In i (j m) -> in_domain (domain m x) (a x i)) /\
  Forall (satisfied a) (device_power_up_bounds m) /\
  Forall (satisfied a) (device_power_equalities m) /\
  Forall (satisfied a) (device_energy_bounds m).

(** Executable versions. *)
Definition in_domainb (d : Domain) (q : Q) : bool :=
  match d with
  | Reals => true
  | NonNegativeReals => Qle_bool 0 q
  | NonPositiveReals => Qle_bool q 0
  end.

Definition satisfiedb (a : Solution) (c : Constraint) : bool :=
  let '(lower, body, upper) := c in
  Qle_bool lower (eval a body) && Qle_bool (eval a body) upper.

Definition feasibleb (m : ConcreteModel) (a : Solution) : bool :=
  forallb (fun i => forallb (fun x => in_domainb (domain m x) (a x i))
                      [ems_power; device_power_down; device_power_up]) (j m)
  && forallb (satisfiedb a) (device_power_up_bounds m)
  && forallb (satisfiedb a) (device_power_equalities m)
  && forallb (satisfiedb a) (device_energy_bounds m).

(** [a] attains the optimum of [m] (the sense is [minimize] throughout). *)
Definition is_optimal (m : ConcreteModel) (a : Solution) : Prop :=
  feasible m a /\ forall b, feasible m b -> eval a (costs m) <= eval b (costs m).

(** [c] is the optimal objective value of [m]. *)
Definition optimal_cost (m : ConcreteModel) (c : Q) : Prop :=
  exists a, is_optimal m a /\ eval a (costs m) == c.

End Pyomo.
Import Pyomo.

(** ** The script's data *)

(** One row of the price frame: the columns "consumption" (buy price) and
    "production" (sell price). *)
Record PriceRow : Type := {
  consumption : Q;
  production : Q
}.

Definition PriceFrame : Type := list PriceRow.

(** ** [schedule_simple_battery]: the model *)

Section Model.

Variable prices : PriceFrame.
Variables soc_start soc_max soc_min soc_target : Q.
Variable power_capacity : Q.
Variable conversion_efficiency : Q.

(** [RangeSet(0, len(prices.index) - 1)] *)
Definition model_j : list nat := seq 0 (length prices).

(** [prices["consumption"].iloc[j]]; every use has [j] inside the frame. *)
Definition price_up_select (j : nat) : Q := nth j (map consumption prices) 0.

(** [prices["production"].iloc[j]] *)
Definition price_down_select (j : nat) : Q := nth j (map production prices) 0.

(** The indexed parameters. *)
Definition up_price (j : nat) : Q := price_up_select j.
Definition down_price (j : nat) : Q := price_down_select j.
Definition device_max (j : nat) : Q := soc_max.
Definition device_min (j : nat) : Q := soc_min.

Definition ems_derivative_bounds (j : nat) : Result Constraint :=
  Ok (- power_capacity, Ref ems_power j, power_capacity).

(** One element of [stock_changes]. *)
Definition stock_change (k : nat) : Result Expr :=
  d <- div_const (Ref device_power_down k) conversion_efficiency ;;
  Ok (Add d (Mul (Ref device_power_up k) (Num conversion_efficiency))).

Definition device_bounds (j : nat) : Result Constraint :=
  stock_changes <- mapM stock_change (seq 0 (j + 1)) ;;
  if (Z.of_nat j =? Z.of_nat (length prices) - 1)%Z then
    Ok (soc_target, Add (Num soc_start) (sum_expr stock_changes), soc_target)
  else
    Ok (device_min j, Add (Num soc_start) (sum_expr stock_changes), device_max j).

Definition device_derivative_equalities (j : nat) : Result Constraint :=
  Ok (0, Sub (Add (Ref device_power_up j) (Ref device_power_down j)) (Ref ems_power j), 0).

(** [costs = 0; for j in m.j: costs += down[j] * down_price[j];
    costs += up[j] * up_price[j]] *)
Definition cost_function : Expr :=
  fold_left
    (fun costs j =>
       Add (Add costs (Mul (Ref device_power_down j) (Num (down_price j))))
           (Mul (Ref device_power_up j) (Num (up_price j))))
    model_j (Num 0).

Definition var_domain (x : VarName) : Domain :=
  match x with
  | ems_power => Reals
  | device_power_down => NonPositiveReals
  | device_power_up => NonNegativeReals
  end.

(** Everything up to and including [model.costs = Objective(...)]. *)
Definition build_model : Result ConcreteModel :=
  up_bounds <- construct_constraints ems_derivative_bounds model_j ;;
  equalities <- construct_constraints device_derivative_equalities model_j ;;
  energy_bounds <- construct_constraints device_bounds model_j ;;
  Ok {| j := model_j;
        domain := var_domain;
        initialize := fun _ => 0;
        device_power_up_bounds := up_bounds;
        device_power_equalities := equalities;
        device_energy_bounds := energy_bounds;
        costs := cost_function;
        sense := minimize |}.

(** The external solver: [solver.solve(model, load_solutions=False)]. *)
Variable solve : ConcreteModel -> Result SolverResults.

(** Returns what was printed and the function's result. *)
Definition schedule_simple_battery
  : list TerminationCondition * Result (Q * list (option Q)) :=
  match build_model with
  | Raise e => ([], Raise e)
  | Ok model =>
      match solve model with
      | Raise e => ([], Raise e)
      | Ok results =>
          let printed := [termination_condition results] in
          let values :=
            if (0 <? length (solution results))%nat
            then load_from model results (initial_values model)
            else initial_values model in
          match value values (costs model) with
          | Raise e => (printed, Raise e)
          | Ok planned_costs =>
              let planned_device_power :=
                map (fun i => values ems_power i) (j model) in
              (printed, Ok (planned_costs, planned_device_power))
          end
      end
  end.

End Model.

(** ** Definitions used in the statements *)

(** The body of one element of [stock_changes], once built. *)
Definition stock_expr (conversion_efficiency : Q) (k : nat) : Expr :=
  Add (Div (Ref device_power_down k) (Num conversion_efficiency))
      (Mul (Ref device_power_up k) (Num conversion_efficiency)).

(** The body of the energy constraint of step [i]:
    [soc_start + sum(stock_changes)] with [k] in [range(0, i + 1)]. *)
Definition soc_expr (soc_start conversion_efficiency : Q) (i : nat) : Expr :=
  Add (Num soc_start) (sum_expr (map (stock_expr conversion_efficiency) (seq 0 (i + 1)))).

(** The running state of charge after step [i] under an assignment:
    [soc_start + sum over k = 0..i of (down[k] / eta + up[k] * eta)]. *)
Definition running_soc (soc_start eta : Q) (a : Solution) (i : nat) : Q :=
  soc_start
  + sigma (fun k => a device_power_down k / eta + a device_power_up k * eta) (S i).

(** The energy constraint of step [i], once built. *)
Definition energy_constraint (T : nat) (soc_start soc_max soc_min soc_target eta : Q)
  (i : nat) : Constraint :=
  if (Z.of_nat i =? Z.of_nat T - 1)%Z
  then (soc_target, soc_expr soc_start eta i, soc_target)
  else (soc_min, soc_expr soc_start eta i, soc_max).

(** What feasibility asks of step [i] of a horizon of [T] steps. *)
Definition step_ok (T : nat) (soc_start soc_max soc_min soc_target power_capacity eta : Q)
  (a : Solution) (i : nat) : Prop :=
  a device_power_down i <= 0 /\
  0 <= a device_power_up i /\
  (- power_capacity <= a ems_power i /\ a ems_power i <= power_capacity) /\
  a ems_power i == a device_power_up i + a device_power_down i /\
  (if (S i =? T)%nat
   then running_soc soc_start eta a i == soc_target
   else soc_min <= running_soc soc_start eta a i
        /\ running_soc soc_start eta a i <= soc_max).

(** The values the variables hold when they are read back: the first
    candidate if there is one, the initial zeros otherwise. *)
Definition read_back (results : SolverResults) : Solution :=
  match solution results with
  | s :: _ => s
  | [] => fun _ _ => 0
  end.

(** Every sell (production) price lowered by [delta], buy prices unchanged. *)
Definition lower_sell_prices (delta : Q) (prices : PriceFrame) : PriceFrame :=
  map (fun r => {| consumption := consumption r; production := production r - delta |})
      prices.

(** The model [build_model] returns when it returns (see
    [build_model_constructed]). *)
Definition constructed_model (prices : PriceFrame)
  (soc_start soc_max soc_min soc_target power_capacity eta : Q) : ConcreteModel :=
  {| j := seq 0 (length prices);
     domain := var_domain;
     initialize := fun _ => 0;
     device_power_up_bounds :=
       map (fun i => (- power_capacity, Ref ems_power i, power_capacity))
           (seq 0 (length prices));
     device_power_equalities :=
       map (fun i => (0, Sub (Add (Ref device_power_up i) (Ref device_power_down i))
                             (Ref ems_power i), 0))
           (seq 0 (length prices));
     device_energy_bounds :=
       map (energy_constraint (length prices) soc_start soc_max soc_min soc_target eta)
           (seq 0 (length prices));
     costs := cost_function prices;
     sense := minimize |}.

(** ** Inputs used in the examples below *)

(** One step, buying at 8 and selling at 7. *)
Definition single_step_prices : PriceFrame :=
  [{| consumption := 8; production := 7 |}].

(** One step where selling pays more than buying costs. *)
Definition sell_above_buy_prices : PriceFrame :=
  [{| consumption := 1; production := 2 |}].

(** Charging [t] and discharging [t] in every step: zero net power. *)
Definition charge_and_discharge (t : Q) : Solution :=
  fun x _ =>
    match x with
    | ems_power => 0
    | device_power_down => - t
    | device_power_up => t
    end.

(** Charging 8 while discharging 12 in step 0: net power -4. *)
Definition charge_8_discharge_12 : Solution :=
  fun x i =>
    match x, i with
    | ems_power, O => -4
    | device_power_down, O => -12
    | device_power_up, O => 8
    | _, _ => 0
    end.

(** The script's own prices: 24 hourly steps. *)
Definition raw_production : list Q :=
  [7; 2; 3; 4; 1; 6; 7; 2; 3; 4; 1; 6; 7; 2; 3; 4; 1; 6; 7; 2; 3; 4; 1; 6].

Definition raw_consumption : list Q :=
  [8; 3; 4; 5; 2; 7; 8; 3; 4; 5; 2; 7; 8; 3; 4; 5; 2; 7; 8; 3; 4; 5; 2; 7].

Definition script_prices : PriceFrame :=
  map (fun cp => {| consumption := fst cp; production := snd cp |})
      (combine raw_consumption raw_production).

(** Charging at full power (10) during the first seven steps: from 20 to 90. *)
Definition charge_first_seven : Solution :=
  fun x i =>
    match x with
    | device_power_down => 0
    | _ => if (i <? 7)%nat then 10 else 0
    end.

(** Discharging 5 in step 0. *)
Definition discharge_five : Solution :=
  fun x i =>
    match x, i with
    | ems_power, O => -5
    | device_power_down, O => -5
    | _, _ => 0
    end.

(** A solver that answers every model with the same results. *)
Definition solver_returning (results : SolverResults)
  : ConcreteModel -> Result SolverResults :=
  fun _ => Ok results.

Definition results_charge : SolverResults :=
  {| termination_condition := optimal; solution := [charge_first_seven] |}.

Definition results_infeasible : SolverResults :=
  {| termination_condition := infeasible; solution := [] |}.

(** ** Further definitions: structure of expressions, derived assignments,
       the script's top level *)

(** The variable references of an expression, left to right. *)
Fixpoint refs (e : Expr) : list (VarName * nat) :=
  match e with
  | Num _ => []
  | Ref x i => [(x, i)]
  | Add a b | Sub a b | Mul a b | Div a b => refs a ++ refs b
  end.

(** The same net power with charge and discharge netted out: only one of the
    two is non-zero in a step. *)
Definition netted (a : Solution) : Solution :=
  fun x i =>
    match x with
    | ems_power => a ems_power i
    | device_power_up => if Qle_bool 0 (a ems_power i) then a ems_power i else 0
    | device_power_down => if Qle_bool 0 (a ems_power i) then 0 else a ems_power i
    end.

(** The assignment that does nothing. *)
Definition idle : Solution := fun _ _ => 0.

(** Every buy and every sell price raised by [delta]. *)
Definition shift_prices (delta : Q) (prices : PriceFrame) : PriceFrame :=
  map (fun r => {| consumption := consumption r + delta;
                   production := production r + delta |})
      prices.

(** The number of steps as a rational. *)
Definition horizon (prices : PriceFrame) : Q := inject_Z (Z.of_nat (length prices)).

(** A list of variable values as numbers; [None] when one of them is
    Python's [None] (numpy then raises a [TypeError]). *)
Fixpoint numbers (l : list (option Q)) : option (list Q) :=
  match l with
  | [] => Some []
  | Some q :: t => option_map (cons q) (numbers t)
  | None :: _ => None
  end.

(** What the script prints, line by line. *)
Inductive Printed : Type :=
| PrintedStatus (t : TerminationCondition)
| PrintedCosts (c : Q)
| PrintedPower (p : list (option Q))
| PrintedSoC (s : list Q).

Inductive ScriptOutcome : Type :=
| Finished
| Failed (e : exn)       (* raised inside [schedule_simple_battery] *)
| FailedTypeError.       (* arithmetic on [None] in [compute_soc_schedule] *)

(** The top level of the script: the schedule for the script's prices and
    device with the default efficiency 1, its SoC schedule, three prints. *)
Definition script (solve : ConcreteModel -> Result SolverResults)
  : list Printed * ScriptOutcome :=
  let soc_start := 20 in
  let soc_max := 90 in
  let soc_min := 10 in
  let soc_target := 90 in
  let power_capacity := 10 in
  let '(printed, r) :=
    schedule_simple_battery script_prices soc_start soc_max soc_min soc_target
      power_capacity 1 solve in
  match r with
  | Raise e => (map PrintedStatus printed, Failed e)
  | Ok (costs, power_schedule) =>
      match numbers power_schedule with
      | None => (map PrintedStatus printed, FailedTypeError)
      | Some p =>
          let soc_schedule := compute_soc_schedule p soc_start in
          (map PrintedStatus printed
             ++ [PrintedCosts costs; PrintedPower power_schedule;
                 PrintedSoC soc_schedule],
           Finished)
      end
  end.

(** A solver that cannot be run. *)
Definition solver_unavailable : ConcreteModel -> Result SolverResults :=
  fun _ => Raise ApplicationError.


(** * Properties *)

(** ** Sums *)

Lemma fold_left_Qplus_acc (l : list Q) (acc : Q) :
  fold_left Qplus l acc == acc + sum l.
Proof.
  unfold sum. revert acc.
  induction l as [|x t IH]; intro acc; simpl.
  - ring.
  - rewrite (IH (acc + x)), (IH (0 + x)). ring.
Qed.

Lemma sum_cons (x : Q) (l : list Q) : sum (x :: l) == x + sum l.
Proof.
  unfold sum at 1. simpl. rewrite fold_left_Qplus_acc. ring.
Qed.

Lemma sigma_ext (f g : nat -> Q) (n : nat) :
  (forall k, (k < n)%nat -> f k == g k) -> sigma f n == sigma g n.
Proof.
  induction n as [|n IH]; intro H; simpl.
  - reflexivity.
  - rewrite IH, (H n) by (intros; auto with arith). reflexivity.
Qed.

Lemma sigma_plus (f g : nat -> Q) (n : nat) :
  sigma (fun k => f k + g k) n == sigma f n + sigma g n.
Proof.
  induction n as [|n IH]; simpl.
  - ring.
  - rewrite IH. ring.
Qed.

Lemma sigma_scale (c : Q) (f : nat -> Q) (n : nat) :
  sigma (fun k => c * f k) n == c * sigma f n.
Proof.
  induction n as [|n IH]; simpl.
  - ring.
  - rewrite IH. ring.
Qed.

Lemma sigma_zero (f : nat -> Q) (n : nat) :
  (forall k, (k < n)%nat -> f k == 0) -> sigma f n == 0.
Proof.
  induction n as [|n IH]; intro H; simpl.
  - reflexivity.
  - rewrite IH, (H n) by (intros; auto with arith). ring.
Qed.

Lemma sigma_nonneg (f : nat -> Q) (n : nat) :
  (forall k, (k < n)%nat -> 0 <= f k) -> 0 <= sigma f n.
Proof.
  induction n as [|n IH]; intro H; simpl.
  - lra.
  - assert (0 <= sigma f n) by (apply IH; intros; auto with arith).
    assert (0 <= f n) by (apply H; auto with arith).
    lra.
Qed.

(** [sum] of a prefix of a list read through [nth] is a [sigma]. *)
Lemma sum_firstn_sigma (l : list Q) (k : nat) :
  (k <= length l)%nat -> sum (firstn k l) == sigma (fun i => nth i l 0) k.
Proof.
  revert l. induction k as [|k IH]; intros l Hk.
  - reflexivity.
  - destruct l as [|x t]; [simpl in Hk; lia|].
    simpl firstn. rewrite sum_cons, IH by (simpl in Hk; lia).
    clear IH Hk. induction k as [|k IHk]; simpl.
    + ring.
    + simpl in IHk. rewrite <- IHk. ring.
Qed.

(** ** [compute_soc_schedule] *)

Lemma cumsum_from_length (l : list Q) (acc : Q) :
  length (cumsum_from acc l) = length l.
Proof.
  revert acc. induction l as [|x t IH]; intro acc; simpl; [|rewrite IH]; reflexivity.
Qed.

Lemma cumsum_length (l : list Q) : length (cumsum l) = length l.
Proof.
  destruct l; simpl; [|rewrite cumsum_from_length]; reflexivity.
Qed.

Lemma compute_soc_schedule_length (p : list Q) (s : Q) :
  length (compute_soc_schedule p s) = S (length p).
Proof.
  unfold compute_soc_schedule. simpl. now rewrite length_map, cumsum_length.
Qed.

Lemma nth_cumsum_from (s : Q) (t : list Q) (acc : Q) (k : nat) :
  (k < length t)%nat ->
  nth k (map (fun c => c + s) (cumsum_from acc t)) 0
  == s + (acc + sum (firstn (S k) t)).
Proof.
  revert acc k. induction t as [|x t IH]; intros acc k Hk; simpl in Hk.
  - lia.
  - destruct k as [|k].
    + simpl. unfold sum. simpl. ring.
    + change (nth (S k) (map (fun c => c + s) (cumsum_from acc (x :: t))) 0)
        with (nth k (map (fun c => c + s) (cumsum_from (acc + x) t)) 0).
      rewrite IH by lia.
      change (firstn (S (S k)) (x :: t)) with (x :: firstn (S k) t).
      rewrite sum_cons. ring.
Qed.

Lemma nth_compute_soc_schedule (p : list Q) (s : Q) (k : nat) :
  (1 <= k <= length p)%nat ->
  nth k (compute_soc_schedule p s) 0 == s + sum (firstn k p).
Proof.
  intros [H1 H2]. destruct k as [|k]; [lia|].
  destruct p as [|x t]; simpl in H2; [lia|].
  unfold compute_soc_schedule.
  change (nth (S k) ([s] ++ map (fun c => c + s) (cumsum (x :: t))) 0)
    with (nth k ((x + s) :: map (fun c => c + s) (cumsum_from x t)) 0).
  destruct k as [|k].
  - simpl. unfold sum. simpl. ring.
  - change (nth (S k) ((x + s) :: map (fun c => c + s) (cumsum_from x t)) 0)
      with (nth k (map (fun c => c + s) (cumsum_from x t)) 0).
    rewrite nth_cumsum_from by lia.
    change (firstn (S (S k)) (x :: t)) with (x :: firstn (S k) t).
    rewrite sum_cons. ring.
Qed.

(** In exact arithmetic: [compute_soc_schedule p s] has length [len(p) + 1],
    its element 0 is [s], its element [k] equals [s + sum(p[0:k])] for every
    [k] from 1 to [len(p)], and the empty schedule gives [[s]]. *)
Theorem compute_soc_schedule_spec (p : list Q) (s : Q) :
  length (compute_soc_schedule p s) = S (length p) /\
  nth_error (compute_soc_schedule p s) 0 = Some s /\
  (forall k, (1 <= k <= length p)%nat ->
     exists v, nth_error (compute_soc_schedule p s) k = Some v /\
               v == s + sum (firstn k p)) /\
  compute_soc_schedule [] s = [s].
Proof.
  split; [apply compute_soc_schedule_length|].
  split; [reflexivity|].
  split; [|reflexivity].
  intros k Hk.
  exists (nth k (compute_soc_schedule p s) 0). split.
  - apply nth_error_nth'. rewrite compute_soc_schedule_length. lia.
  - now apply nth_compute_soc_schedule.
Qed.

(** ** The shape of the constructed model *)

Lemma mapM_Ok_map {A B : Type} (f : A -> Result B) (g : A -> B) (l : list A) (bs : list B) :
  (forall a b, f a = Ok b -> b = g a) -> mapM f l = Ok bs -> bs = map g l.
Proof.
  intro Hfg. revert bs. induction l as [|a t IH]; simpl; intros bs H.
  - now inversion H.
  - destruct (f a) as [b|e] eqn:Ea; simpl in H; [|discriminate].
    destruct (mapM f t) as [bt|e] eqn:Et; simpl in H; [|discriminate].
    inversion H; subst. f_equal; auto.
Qed.

Lemma mapM_total {A B : Type} (f : A -> Result B) (g : A -> B) (l : list A) :
  (forall a, In a l -> f a = Ok (g a)) -> mapM f l = Ok (map g l).
Proof.
  induction l as [|a t IH]; simpl; intro H.
  - reflexivity.
  - rewrite (H a) by auto. simpl. rewrite IH by auto. reflexivity.
Qed.

Lemma stock_change_inv (eta : Q) (k : nat) (e : Expr) :
  stock_change eta k = Ok e -> e = stock_expr eta k /\ ~ eta == 0.
Proof.
  unfold stock_change, div_const. intro H.
  destruct (Qeq_bool eta 0) eqn:E; simpl in H; [discriminate|].
  inversion H. split; [reflexivity|].
  now apply Qeq_bool_neq.
Qed.

Lemma device_bounds_inv (prices : PriceFrame)
  (soc_start soc_max soc_min soc_target eta : Q) (i : nat) (c : Constraint) :
  device_bounds prices soc_start soc_max soc_min soc_target eta i = Ok c ->
  c = energy_constraint (length prices) soc_start soc_max soc_min soc_target eta i
  /\ ~ eta == 0.
Proof.
  unfold device_bounds, energy_constraint, soc_expr. intro H.
  destruct (mapM (stock_change eta) (seq 0 (i + 1))) as [sc|e] eqn:E; simpl in H;
    [|discriminate].
  assert (Hne : ~ eta == 0).
  { rewrite Nat.add_1_r in E. simpl in E.
    destruct (stock_change eta 0) as [e0|] eqn:E0; simpl in E; [|discriminate].
    now apply stock_change_inv in E0. }
  apply (mapM_Ok_map _ (stock_expr eta)) in E.
  - subst sc. split; [|exact Hne].
    destruct (Z.of_nat i =? Z.of_nat (length prices) - 1)%Z; now inversion H.
  - intros k e Hk. now apply stock_change_inv in Hk.
Qed.

Lemma checked_rule_inv (r : Result Constraint) (b : Constraint) :
  (c <- r ;; check_bounds c) = Ok b -> r = Ok b.
Proof.
  destruct r as [[[lower body] upper]|e]; simpl; [|discriminate].
  destruct (Qle_bool lower upper); [|discriminate].
  intro H. now inversion H.
Qed.

(** What [build_model] returns whenever it returns. *)
Lemma build_model_inv (prices : PriceFrame)
  (soc_start soc_max soc_min soc_target power_capacity eta : Q) (m : ConcreteModel) :
  build_model prices soc_start soc_max soc_min soc_target power_capacity eta = Ok m ->
  m = {| j := seq 0 (length prices);
         domain := var_domain;
         initialize := fun _ => 0;
         device_power_up_bounds :=
           map (fun i => (- power_capacity, Ref ems_power i, power_capacity))
               (seq 0 (length prices));
         device_power_equalities :=
           map (fun i => (0, Sub (Add (Ref device_power_up i) (Ref device_power_down i))
                                 (Ref ems_power i), 0))
               (seq 0 (length prices));
         device_energy_bounds :=
           map (energy_constraint (length prices) soc_start soc_max soc_min soc_target eta)
               (seq 0 (length prices));
         costs := cost_function prices;
         sense := minimize |}.
Proof.
  unfold build_model, model_j, construct_constraints. intro H.
  destruct (mapM (fun i => c <- ems_derivative_bounds power_capacity i ;; check_bounds c)
              (seq 0 (length prices))) as [ub|e] eqn:E1; cbn [bind] in H; [|discriminate].
  destruct (mapM (fun i => c <- device_derivative_equalities i ;; check_bounds c)
              (seq 0 (length prices))) as [eq|e] eqn:E2; cbn [bind] in H; [|discriminate].
  destruct (mapM (fun i => c <- device_bounds prices soc_start soc_max soc_min
                                  soc_target eta i ;; check_bounds c)
              (seq 0 (length prices))) as [eb|e] eqn:E3; cbn [bind] in H; [|discriminate].
  apply (mapM_Ok_map _ (fun i => (- power_capacity, Ref ems_power i, power_capacity)))
    in E1; [|intros a b Hab; apply checked_rule_inv in Hab;
             unfold ems_derivative_bounds in Hab; now inversion Hab].
  apply (mapM_Ok_map _ (fun i => (0, Sub (Add (Ref device_power_up i)
                                             (Ref device_power_down i))
                                        (Ref ems_power i), 0)))
    in E2; [|intros a b Hab; apply checked_rule_inv in Hab;
             unfold device_derivative_equalities in Hab; now inversion Hab].
  apply (mapM_Ok_map _ (energy_constraint (length prices) soc_start soc_max soc_min
                          soc_target eta))
    in E3; [|intros a b Hab; apply checked_rule_inv in Hab;
             now apply device_bounds_inv in Hab].
  subst. now inversion H.
Qed.

Lemma mapM_Ok_In {A B : Type} (f : A -> Result B) (l : list A) (bs : list B) (a : A) :
  mapM f l = Ok bs -> In a l -> exists b, f a = Ok b.
Proof.
  revert bs. induction l as [|x t IH]; simpl; intros bs H Hin; [contradiction|].
  destruct (f x) as [b|e] eqn:Ex; simpl in H; [|discriminate].
  destruct (mapM f t) as [bt|e] eqn:Et; simpl in H; [|discriminate].
  destruct Hin as [->|Hin]; [now exists b|].
  now apply (IH bt).
Qed.

(** A model with a step is built only with a non-zero efficiency. *)
Lemma build_model_nonzero (prices : PriceFrame)
  (soc_start soc_max soc_min soc_target power_capacity eta : Q) (m : ConcreteModel) :
  build_model prices soc_start soc_max soc_min soc_target power_capacity eta = Ok m ->
  prices <> [] -> ~ eta == 0.
Proof.
  unfold build_model, model_j, construct_constraints. intros H Hp.
  destruct (mapM (fun i => c <- ems_derivative_bounds power_capacity i ;; check_bounds c)
              (seq 0 (length prices))) as [ub|e] eqn:E1; cbn [bind] in H; [|discriminate].
  destruct (mapM (fun i => c <- device_derivative_equalities i ;; check_bounds c)
              (seq 0 (length prices))) as [eq|e] eqn:E2; cbn [bind] in H; [|discriminate].
  destruct (mapM (fun i => c <- device_bounds prices soc_start soc_max soc_min
                                  soc_target eta i ;; check_bounds c)
              (seq 0 (length prices))) as [eb|e] eqn:E3; cbn [bind] in H; [|discriminate].
  destruct (mapM_Ok_In _ _ _ 0%nat E3) as [c Hc].
  - apply in_seq. destruct prices; [congruence|simpl; lia].
  - apply checked_rule_inv in Hc. now apply device_bounds_inv in Hc.
Qed.

Lemma device_bounds_ok (prices : PriceFrame)
  (soc_start soc_max soc_min soc_target eta : Q) (i : nat) :
  ~ eta == 0 ->
  device_bounds prices soc_start soc_max soc_min soc_target eta i
  = Ok (energy_constraint (length prices) soc_start soc_max soc_min soc_target eta i).
Proof.
  intro Hne. unfold device_bounds, energy_constraint, soc_expr.
  rewrite (mapM_total _ (stock_expr eta)).
  - simpl. unfold device_min, device_max.
    destruct (Z.of_nat i =? Z.of_nat (length prices) - 1)%Z; reflexivity.
  - intros k _. unfold stock_change, div_const.
    destruct (Qeq_bool eta 0) eqn:E; [|reflexivity].
    apply Qeq_bool_iff in E. contradiction.
Qed.

Lemma check_bounds_ok (lower upper : Q) (body : Expr) :
  lower <= upper -> check_bounds (lower, body, upper) = Ok (lower, body, upper).
Proof.
  intro H. unfold check_bounds. apply Qle_bool_iff in H. now rewrite H.
Qed.

Lemma check_energy_constraint_ok (T : nat)
  (soc_start soc_max soc_min soc_target eta : Q) (i : nat) :
  soc_min <= soc_max \/ S i = T ->
  check_bounds (energy_constraint T soc_start soc_max soc_min soc_target eta i)
  = Ok (energy_constraint T soc_start soc_max soc_min soc_target eta i).
Proof.
  intro H. unfold energy_constraint.
  destruct (Z.eqb_spec (Z.of_nat i) (Z.of_nat T - 1)) as [E|E].
  - apply check_bounds_ok, Qle_refl.
  - apply check_bounds_ok. destruct H as [H|H]; [exact H|lia].
Qed.

(** Sufficient for the model to be built: a non-zero efficiency, a
    non-negative capacity and [soc_min <= soc_max]. *)
Lemma build_model_ok (prices : PriceFrame)
  (soc_start soc_max soc_min soc_target power_capacity eta : Q) :
  ~ eta == 0 -> - power_capacity <= power_capacity -> soc_min <= soc_max ->
  exists m,
    build_model prices soc_start soc_max soc_min soc_target power_capacity eta = Ok m.
Proof.
  intros Hne Hcap Hsoc. unfold build_model, model_j, construct_constraints.
  rewrite (mapM_total _ (fun i => (- power_capacity, Ref ems_power i, power_capacity)))
    by (intros i _; unfold ems_derivative_bounds; cbn [bind];
        now apply check_bounds_ok).
  rewrite (mapM_total _ (fun i => (0, Sub (Add (Ref device_power_up i)
                                              (Ref device_power_down i))
                                         (Ref ems_power i), 0)))
    by reflexivity.
  rewrite (mapM_total _ (energy_constraint (length prices) soc_start soc_max soc_min
                           soc_target eta)).
  - simpl. eexists. reflexivity.
  - intros i _. rewrite device_bounds_ok by exact Hne. cbn [bind].
    apply check_energy_constraint_ok. now left.
Qed.

(** ** Meaning of the constraint bodies and of the objective *)

Lemma eval_sum_expr_snoc (a : Solution) (l : list Expr) (e : Expr) :
  eval a (sum_expr (l ++ [e])) = eval a (sum_expr l) + eval a e.
Proof.
  unfold sum_expr. rewrite fold_left_app. reflexivity.
Qed.

Lemma eval_soc_expr (soc_start eta : Q) (a : Solution) (i : nat) :
  eval a (soc_expr soc_start eta i) == running_soc soc_start eta a i.
Proof.
  unfold soc_expr, running_soc. rewrite Nat.add_1_r.
  cbn [eval]. apply Qplus_comp; [reflexivity|].
  generalize (S i) as n. induction n as [|n IH].
  - reflexivity.
  - rewrite seq_S, map_app. simpl map. rewrite eval_sum_expr_snoc, IH.
    reflexivity.
Qed.

Lemma eval_cost_function (prices : PriceFrame) (a : Solution) :
  eval a (cost_function prices)
  == sigma (fun i => a device_power_down i * nth i (map production prices) 0
                     + a device_power_up i * nth i (map consumption prices) 0)
           (length prices).
Proof.
  unfold cost_function, model_j.
  generalize (length prices) as n. induction n as [|n IH].
  - reflexivity.
  - rewrite seq_S, fold_left_app. cbn [fold_left eval sigma]. rewrite IH.
    unfold down_price, up_price, price_down_select, price_up_select. simpl. ring.
Qed.

(** ** Feasible assignments, step by step *)

Lemma satisfied_energy_constraint (T : nat)
  (soc_start soc_max soc_min soc_target eta : Q) (a : Solution) (i : nat) :
  satisfied a (energy_constraint T soc_start soc_max soc_min soc_target eta i) <->
  (if (S i =? T)%nat
   then running_soc soc_start eta a i == soc_target
   else soc_min <= running_soc soc_start eta a i
        /\ running_soc soc_start eta a i <= soc_max).
Proof.
  unfold energy_constraint, satisfied.
  destruct (Z.eqb_spec (Z.of_nat i) (Z.of_nat T - 1)) as [E|E];
    destruct (Nat.eqb_spec (S i) T) as [E'|E']; try lia;
    rewrite eval_soc_expr.
  - split; intro H; [apply Qle_antisym; tauto | rewrite H; split; apply Qle_refl].
  - reflexivity.
Qed.

Lemma feasible_steps (prices : PriceFrame)
  (soc_start soc_max soc_min soc_target power_capacity eta : Q)
  (m : ConcreteModel) (a : Solution) :
  build_model prices soc_start soc_max soc_min soc_target power_capacity eta = Ok m ->
  (feasible m a <->
   forall i, (i < length prices)%nat ->
     step_ok (length prices) soc_start soc_max soc_min soc_target power_capacity eta a i).
Proof.
  intro Hb. apply build_model_inv in Hb. subst m.
  unfold feasible, step_ok. cbn [j domain device_power_up_bounds device_power_equalities
                                device_energy_bounds].
  rewrite !Forall_map, !Forall_forall.
  split.
  - intros (Hd & Hu & He & Hs) i Hi.
    assert (Hin : In i (seq 0 (length prices))) by (apply in_seq; lia).
    repeat split.
    + apply (Hd device_power_down i Hin).
    + apply (Hd device_power_up i Hin).
    + apply (Hu i Hin).
    + apply (Hu i Hin).
    + specialize (He i Hin). cbn in He. lra.
    + apply satisfied_energy_constraint, Hs, Hin.
  - intro H. split; [|split; [|split]].
    + intros x i Hin. apply in_seq in Hin.
      destruct (H i) as (H1 & H2 & _); [lia|].
      destruct x; simpl; auto.
    + intros i Hin. apply in_seq in Hin.
      destruct (H i) as (_ & _ & H3 & _); [lia|]. exact H3.
    + intros i Hin. apply in_seq in Hin.
      destruct (H i) as (_ & _ & _ & H4 & _); [lia|]. cbn. split; lra.
    + intros i Hin. apply in_seq in Hin.
      apply satisfied_energy_constraint. apply H. lia.
Qed.

Lemma nth_error_map_seq {B : Type} (f : nat -> B) (n i : nat) :
  (i < n)%nat -> nth_error (map f (seq 0 n)) i = Some (f i).
Proof.
  intro Hi. rewrite nth_error_map.
  rewrite (nth_error_nth' (seq 0 n) 0%nat) by (rewrite length_seq; lia).
  rewrite seq_nth by lia. reflexivity.
Qed.

Lemma feasible_step (prices : PriceFrame)
  (soc_start soc_max soc_min soc_target power_capacity eta : Q)
  (m : ConcreteModel) (a : Solution) (i : nat) :
  build_model prices soc_start soc_max soc_min soc_target power_capacity eta = Ok m ->
  feasible m a -> (i < length prices)%nat ->
  step_ok (length prices) soc_start soc_max soc_min soc_target power_capacity eta a i.
Proof.
  intros Hb Hf. now apply (feasible_steps _ _ _ _ _ _ _ _ _ Hb).
Qed.

(** ** The constraints of the model *)

(** C1. For every step [i] from 0 to [T-2], the model holds the constraint
    [soc_min <= soc_start + sum over k = 0..i of (down[k] / eta + up[k] * eta)
    <= soc_max]: it is the [i]-th energy constraint, its body means the
    running state of charge, and every feasible assignment keeps the running
    state of charge within [[soc_min, soc_max]] there. *)
Theorem running_soc_bounded_before_final_step (prices : PriceFrame)
  (soc_start soc_max soc_min soc_target power_capacity eta : Q)
  (m : ConcreteModel) (i : nat) :
  build_model prices soc_start soc_max soc_min soc_target power_capacity eta = Ok m ->
  (i + 1 < length prices)%nat ->
  nth_error (device_energy_bounds m) i
    = Some (soc_min, soc_expr soc_start eta i, soc_max) /\
  (forall a, eval a (soc_expr soc_start eta i) == running_soc soc_start eta a i) /\
  (forall a, feasible m a ->
     soc_min <= running_soc soc_start eta a i /\
     running_soc soc_start eta a i <= soc_max).
Proof.
  intros Hb Hi. split; [|split].
  - rewrite (build_model_inv _ _ _ _ _ _ _ _ Hb). cbn [device_energy_bounds].
    rewrite nth_error_map_seq by lia. unfold energy_constraint.
    destruct (Z.eqb_spec (Z.of_nat i) (Z.of_nat (length prices) - 1)); [lia|reflexivity].
  - intro a. apply eval_soc_expr.
  - intros a Hf.
    destruct (feasible_step _ _ _ _ _ _ _ _ a i Hb Hf) as (_ & _ & _ & _ & Hs); [lia|].
    destruct (Nat.eqb_spec (S i) (length prices)); [lia|exact Hs].
Qed.

(** C4. The objective of the model is minimised and means the sum over all
    steps of [down[i] * sell price at i + up[i] * buy price at i]. *)
Theorem objective_is_priced_power (prices : PriceFrame)
  (soc_start soc_max soc_min soc_target power_capacity eta : Q)
  (m : ConcreteModel) (a : Solution) :
  build_model prices soc_start soc_max soc_min soc_target power_capacity eta = Ok m ->
  sense m = minimize /\
  eval a (costs m)
  == sigma (fun i => a device_power_down i * nth i (map production prices) 0
                     + a device_power_up i * nth i (map consumption prices) 0)
           (length prices).
Proof.
  intro Hb. rewrite (build_model_inv _ _ _ _ _ _ _ _ Hb). cbn [sense costs].
  split; [reflexivity|apply eval_cost_function].
Qed.

(** ** Running the function *)

Lemma existsb_seq (n i : nat) : (i < n)%nat -> existsb (Nat.eqb i) (seq 0 n) = true.
Proof.
  intro Hi. apply existsb_exists. exists i. split.
  - apply in_seq. lia.
  - apply Nat.eqb_refl.
Qed.

Lemma value_cost_function (prices : PriceFrame) (v : Values) (a : Solution) :
  (forall x i, (i < length prices)%nat -> v x i = Some (a x i)) ->
  value v (cost_function prices) = Ok (eval a (cost_function prices)).
Proof.
  unfold cost_function, model_j.
  generalize (length prices) as n. induction n as [|n IH]; intro H.
  - reflexivity.
  - rewrite seq_S, fold_left_app. cbn [fold_left value eval].
    rewrite IH by (intros; apply H; lia).
    rewrite !H by lia. reflexivity.
Qed.

Lemma values_after_solve (prices : PriceFrame)
  (soc_start soc_max soc_min soc_target power_capacity eta : Q)
  (m : ConcreteModel) (results : SolverResults) (x : VarName) (i : nat) :
  build_model prices soc_start soc_max soc_min soc_target power_capacity eta = Ok m ->
  (i < length prices)%nat ->
  (if (0 <? length (solution results))%nat
   then load_from m results (initial_values m)
   else initial_values m) x i = Some (read_back results x i).
Proof.
  intros Hb Hi. rewrite (build_model_inv _ _ _ _ _ _ _ _ Hb).
  unfold load_from, initial_values, read_back. cbn [j initialize].
  destruct (solution results) as [|s rest]; cbn [length Nat.ltb Nat.leb];
    now rewrite existsb_seq.
Qed.

(** Whenever the model is built and the solver returns, the function prints
    the termination condition and returns the objective and the net power
    under the values the variables then hold. *)
Lemma schedule_simple_battery_run (prices : PriceFrame)
  (soc_start soc_max soc_min soc_target power_capacity eta : Q)
  (solve : ConcreteModel -> Result SolverResults)
  (m : ConcreteModel) (results : SolverResults) :
  build_model prices soc_start soc_max soc_min soc_target power_capacity eta = Ok m ->
  solve m = Ok results ->
  schedule_simple_battery prices soc_start soc_max soc_min soc_target power_capacity
    eta solve
  = ([termination_condition results],
     Ok (eval (read_back results) (cost_function prices),
         map (fun i => Some (read_back results ems_power i)) (seq 0 (length prices)))).
Proof.
  intros Hb Hs. unfold schedule_simple_battery. rewrite Hb, Hs.
  assert (Hc : costs m = cost_function prices)
    by now rewrite (build_model_inv _ _ _ _ _ _ _ _ Hb).
  assert (Hj : j m = seq 0 (length prices))
    by now rewrite (build_model_inv _ _ _ _ _ _ _ _ Hb).
  cbv zeta. rewrite Hc, Hj.
  rewrite (value_cost_function prices _ (read_back results))
    by (intros; now apply (values_after_solve _ _ _ _ _ _ _ _ _ _ _ Hb)).
  f_equal. f_equal. f_equal.
  apply map_ext_in. intros i Hi. apply in_seq in Hi.
  apply (values_after_solve _ _ _ _ _ _ _ _ _ _ _ Hb). lia.
Qed.

Lemma nth_map_seq (f : nat -> Q) (n i : nat) :
  (i < n)%nat -> nth i (map f (seq 0 n)) 0 = f i.
Proof.
  intro Hi. apply nth_error_nth. now apply nth_error_map_seq.
Qed.

(** With a lossless conversion the stock change of a step is its net power. *)
Lemma lossless_running_soc (prices : PriceFrame)
  (soc_start soc_max soc_min soc_target power_capacity eta : Q)
  (m : ConcreteModel) (a : Solution) (i : nat) :
  build_model prices soc_start soc_max soc_min soc_target power_capacity eta = Ok m ->
  feasible m a -> eta == 1 -> (i < length prices)%nat ->
  running_soc soc_start eta a i == soc_start + sigma (a ems_power) (S i).
Proof.
  intros Hb Hf He Hi. unfold running_soc.
  apply Qplus_comp; [reflexivity|].
  apply sigma_ext. intros k Hk.
  destruct (feasible_step _ _ _ _ _ _ _ _ a k Hb Hf) as (_ & _ & _ & Hn & _); [lia|].
  rewrite He, Hn. field.
Qed.


(** C5. For every step [i] the model holds the equality constraint
    [0 <= up[i] + down[i] - ems_power[i] <= 0], so in every feasible
    assignment the net power is the sum of charge and discharge; and the
    returned power schedule is the list of the net-power variable's values
    for the steps 0..T-1, of length [T]. *)
Theorem net_power_is_charge_plus_discharge (prices : PriceFrame)
  (soc_start soc_max soc_min soc_target power_capacity eta : Q)
  (solve : ConcreteModel -> Result SolverResults)
  (m : ConcreteModel) (results : SolverResults) :
  build_model prices soc_start soc_max soc_min soc_target power_capacity eta = Ok m ->
  solve m = Ok results ->
  (forall i, (i < length prices)%nat ->
     nth_error (device_power_equalities m) i
     = Some (0, Sub (Add (Ref device_power_up i) (Ref device_power_down i))
                    (Ref ems_power i), 0)) /\
  (forall a i, feasible m a -> (i < length prices)%nat ->
     a ems_power i == a device_power_up i + a device_power_down i) /\
  exists c power,
    schedule_simple_battery prices soc_start soc_max soc_min soc_target power_capacity
      eta solve
    = ([termination_condition results], Ok (c, power)) /\
    length power = length prices /\
    power = map (fun i => Some (read_back results ems_power i)) (seq 0 (length prices)).
Proof.
  intros Hb Hs. split; [|split].
  - intros i Hi. rewrite (build_model_inv _ _ _ _ _ _ _ _ Hb).
    cbn [device_power_equalities]. now rewrite nth_error_map_seq.
  - intros a i Hf Hi.
    now destruct (feasible_step _ _ _ _ _ _ _ _ a i Hb Hf Hi) as (_ & _ & _ & Hn & _).
  - eexists. eexists. split; [|split; [|reflexivity]].
    + apply (schedule_simple_battery_run _ _ _ _ _ _ _ _ _ _ Hb Hs).
    + now rewrite length_map, length_seq.
Qed.

(** ** No solution candidate *)

(** C9. When the solver returns no solution candidate, the function prints
    the termination condition and raises nothing: loading is skipped, and the
    objective and the net power are read from the variables as they were
    initialised and returned. *)
Theorem no_candidate_still_returns (prices : PriceFrame)
  (soc_start soc_max soc_min soc_target power_capacity eta : Q)
  (solve : ConcreteModel -> Result SolverResults)
  (m : ConcreteModel) (results : SolverResults) :
  build_model prices soc_start soc_max soc_min soc_target power_capacity eta = Ok m ->
  solve m = Ok results ->
  solution results = [] ->
  exists planned_costs,
    value (initial_values m) (costs m) = Ok planned_costs /\
    schedule_simple_battery prices soc_start soc_max soc_min soc_target power_capacity
      eta solve
    = ([termination_condition results],
       Ok (planned_costs, map (fun i => initial_values m ems_power i) (j m))).
Proof.
  intros Hb Hs Hsol.
  pose proof (schedule_simple_battery_run _ _ _ _ _ _ _ _ _ _ Hb Hs) as Hrun.
  unfold schedule_simple_battery in *. rewrite Hb, Hs in *.
  rewrite Hsol in *. cbn [length Nat.ltb Nat.leb] in *. cbv zeta in *.
  destruct (value (initial_values m) (costs m)) as [c|e]; [|discriminate].
  exists c. split; reflexivity.
Qed.

(** C10. When the solver returns no solution candidate, the function returns
    total cost 0 and the all-zero power schedule of length [T], the initial
    values of the variables; a solve whose first candidate has zero net
    power and zero cost returns the same schedule and an equal cost. *)
Theorem no_candidate_returns_zeros (prices : PriceFrame)
  (soc_start soc_max soc_min soc_target power_capacity eta : Q)
  (solve : ConcreteModel -> Result SolverResults)
  (m : ConcreteModel) (results : SolverResults) :
  build_model prices soc_start soc_max soc_min soc_target power_capacity eta = Ok m ->
  solve m = Ok results ->
  solution results = [] ->
  exists c,
    schedule_simple_battery prices soc_start soc_max soc_min soc_target power_capacity
      eta solve
    = ([termination_condition results], Ok (c, repeat (Some 0) (length prices))) /\
    c == 0 /\
    forall solve' results' s rest,
      solve' m = Ok results' ->
      solution results' = s :: rest ->
      (forall i, (i < length prices)%nat -> s ems_power i = 0) ->
      eval s (costs m) == 0 ->
      exists c',
        snd (schedule_simple_battery prices soc_start soc_max soc_min soc_target
               power_capacity eta solve')
        = Ok (c', repeat (Some 0) (length prices)) /\
        c' == c.
Proof.
  intros Hb Hs Hsol.
  assert (Hz : forall n, map (fun _ : nat => Some 0) (seq 0 n) = repeat (Some 0) n)
    by (intro n; now rewrite map_const, length_seq).
  exists (eval (fun _ _ => 0) (cost_function prices)).
  assert (Hc0 : eval (fun _ _ => 0) (cost_function prices) == 0).
  { rewrite eval_cost_function. apply sigma_zero. intros; ring. }
  split; [|split; [exact Hc0|]].
  - rewrite (schedule_simple_battery_run _ _ _ _ _ _ _ _ _ _ Hb Hs).
    unfold read_back. rewrite Hsol. now rewrite Hz.
  - intros solve' results' s rest Hs' Hsol' Hzero Hcost.
    exists (eval s (cost_function prices)).
    rewrite (schedule_simple_battery_run _ _ _ _ _ _ _ _ _ _ Hb Hs').
    unfold read_back. rewrite Hsol'. cbn [snd]. split.
    + f_equal. f_equal. rewrite <- Hz. apply map_ext_in.
      intros i Hi. apply in_seq in Hi. now rewrite Hzero by lia.
    + rewrite Hc0, <- Hcost.
      now rewrite (build_model_inv _ _ _ _ _ _ _ _ Hb).
Qed.

(** ** Price response *)

Lemma lower_sell_prices_length (delta : Q) (prices : PriceFrame) :
  length (lower_sell_prices delta prices) = length prices.
Proof.
  apply length_map.
Qed.

Lemma lower_sell_prices_consumption (delta : Q) (prices : PriceFrame) :
  map consumption (lower_sell_prices delta prices) = map consumption prices.
Proof.
  unfold lower_sell_prices. rewrite map_map. reflexivity.
Qed.

Lemma lower_sell_prices_production (delta : Q) (prices : PriceFrame) (i : nat) :
  (i < length prices)%nat ->
  nth i (map production (lower_sell_prices delta prices)) 0
  = nth i (map production prices) 0 - delta.
Proof.
  unfold lower_sell_prices. rewrite map_map. revert i.
  induction prices as [|r t IH]; intros i Hi; simpl in Hi; [lia|].
  destruct i as [|i]; [reflexivity|].
  simpl. apply IH. lia.
Qed.

(** The feasible set does not depend on the prices. *)
Lemma feasible_lower_sell_prices (delta : Q) (prices : PriceFrame)
  (soc_start soc_max soc_min soc_target power_capacity eta : Q)
  (m m' : ConcreteModel) (a : Solution) :
  build_model prices soc_start soc_max soc_min soc_target power_capacity eta = Ok m ->
  build_model (lower_sell_prices delta prices) soc_start soc_max soc_min soc_target
    power_capacity eta = Ok m' ->
  feasible m' a -> feasible m a.
Proof.
  intros Hb Hb' Hf.
  apply (feasible_steps _ _ _ _ _ _ _ _ a Hb).
  pose proof (proj1 (feasible_steps _ _ _ _ _ _ _ _ a Hb') Hf) as H.
  rewrite lower_sell_prices_length in H. exact H.
Qed.

Lemma cost_lower_sell_prices (delta : Q) (prices : PriceFrame) (a : Solution) :
  eval a (cost_function (lower_sell_prices delta prices))
  == eval a (cost_function prices)
     - delta * sigma (a device_power_down) (length prices).
Proof.
  rewrite !eval_cost_function, lower_sell_prices_length, lower_sell_prices_consumption.
  transitivity
    (sigma (fun i => (a device_power_down i * nth i (map production prices) 0
                      + a device_power_up i * nth i (map consumption prices) 0)
                     + - delta * a device_power_down i)
           (length prices)).
  - apply sigma_ext. intros k Hk.
    rewrite lower_sell_prices_production by exact Hk. ring.
  - rewrite sigma_plus, sigma_scale. ring.
Qed.

(** C8. When every sell price is lowered by the same [delta > 0] and the buy
    prices stay, the optimal cost of the model does not decrease. *)
Theorem optimal_cost_monotone_in_sell_price (delta : Q) (prices : PriceFrame)
  (soc_start soc_max soc_min soc_target power_capacity eta : Q)
  (m m' : ConcreteModel) (c c' : Q) :
  0 < delta ->
  build_model prices soc_start soc_max soc_min soc_target power_capacity eta = Ok m ->
  build_model (lower_sell_prices delta prices) soc_start soc_max soc_min soc_target
    power_capacity eta = Ok m' ->
  optimal_cost m c ->
  optimal_cost m' c' ->
  c <= c'.
Proof.
  intros Hd Hb Hb' (a & (Hfa & Hmin) & Hc) (a' & (Hfa' & _) & Hc').
  assert (Hf : feasible m a')
    by apply (feasible_lower_sell_prices _ _ _ _ _ _ _ _ _ _ _ Hb Hb' Hfa').
  specialize (Hmin a' Hf).
  assert (Hcost : eval a' (costs m')
                  == eval a' (costs m)
                     - delta * sigma (a' device_power_down) (length prices)).
  { rewrite (build_model_inv _ _ _ _ _ _ _ _ Hb), (build_model_inv _ _ _ _ _ _ _ _ Hb').
    cbn [costs]. apply cost_lower_sell_prices. }
  assert (Hdown : 0 <= sigma (fun k => - a' device_power_down k) (length prices)).
  { apply sigma_nonneg. intros k Hk.
    destruct (feasible_step _ _ _ _ _ _ _ _ a' k Hb Hf Hk) as (Hle & _). lra. }
  assert (Hneg : sigma (fun k => - a' device_power_down k) (length prices)
                 == - sigma (a' device_power_down) (length prices)).
  { transitivity (-1 * sigma (a' device_power_down) (length prices)); [|ring].
    rewrite <- sigma_scale. apply sigma_ext. intros; ring. }
  rewrite Hneg in Hdown.
  rewrite <- Hc, <- Hc', Hcost.
  assert (0 <= delta * - sigma (a' device_power_down) (length prices))
    by (apply Qmult_le_0_compat; lra).
  lra.
Qed.

(** ** Power capacity *)

Lemma feasibleb_true (m : ConcreteModel) (a : Solution) :
  feasibleb m a = true -> feasible m a.
Proof.
  unfold feasibleb, feasible. intro H.
  apply andb_prop in H. destruct H as [H H4].
  apply andb_prop in H. destruct H as [H H3].
  apply andb_prop in H. destruct H as [H1 H2].
  assert (Hsat : forall l, forallb (satisfiedb a) l = true -> Forall (satisfied a) l).
  { intros l Hl. apply Forall_forall. intros [[lo body] hi] Hin.
    apply (proj1 (forallb_forall _ _) Hl) in Hin. unfold satisfiedb in Hin.
    apply andb_prop in Hin. destruct Hin as [Ha Hb].
    split; now apply Qle_bool_iff. }
  repeat split; auto.
  intros x i Hin.
  apply (proj1 (forallb_forall _ _) H1) in Hin. cbn [forallb] in Hin.
  apply andb_prop in Hin. destruct Hin as [He Hin].
  apply andb_prop in Hin. destruct Hin as [Hd Hin].
  apply andb_prop in Hin. destruct Hin as [Hu _].
  destruct x.
  - destruct (domain m ems_power); simpl in *; auto; now apply Qle_bool_iff.
  - destruct (domain m device_power_down); simpl in *; auto; now apply Qle_bool_iff.
  - destruct (domain m device_power_up); simpl in *; auto; now apply Qle_bool_iff.
Qed.

(** What the model does bound by the power capacity is the net power; charge
    and discharge only have their signs. *)
Lemma net_power_within_capacity (prices : PriceFrame)
  (soc_start soc_max soc_min soc_target power_capacity eta : Q)
  (m : ConcreteModel) (a : Solution) (i : nat) :
  build_model prices soc_start soc_max soc_min soc_target power_capacity eta = Ok m ->
  feasible m a -> (i < length prices)%nat ->
  (- power_capacity <= a ems_power i /\ a ems_power i <= power_capacity) /\
  0 <= a device_power_up i /\
  a device_power_down i <= 0.
Proof.
  intros Hb Hf Hi.
  destruct (feasible_step _ _ _ _ _ _ _ _ a i Hb Hf Hi) as (Hd & Hu & Hn & _).
  auto.
Qed.

(** C3, at the input [prices = [(consumption 8, production 7)]],
    [soc_start = 20], [soc_max = 90], [soc_min = 0], [soc_target = 0],
    [power_capacity = 5], efficiency 1/2: the constructed model is feasible
    (charging 8 while discharging 12 satisfies every constraint), and in
    every feasible assignment both the charge and the discharge of step 0
    exceed the power capacity. *)
Theorem charge_beyond_capacity_is_feasible :
  exists m,
    build_model single_step_prices 20 90 0 0 5 (1 # 2) = Ok m /\
    feasible m charge_8_discharge_12 /\
    forall a, feasible m a ->
      ~ a device_power_up 0%nat <= 5 /\ ~ - (5) <= a device_power_down 0%nat.
Proof.
  eexists. split; [reflexivity|]. split.
  - apply feasibleb_true. vm_compute. reflexivity.
  - intros a Hf.
    pose proof (feasible_step single_step_prices 20 90 0 0 5 (1 # 2) _ a 0 eq_refl Hf)
      as (Hd & Hu & [Hl _] & Hn & Hs); [simpl; lia|].
    unfold running_soc in Hs. cbn in Hs.
    assert (E : a device_power_down 0%nat / (1 # 2) == 2 * a device_power_down 0%nat)
      by field.
    rewrite E in Hs.
    split; intro H; lra.
Qed.

(** ** Zero capacity *)

Lemma zero_capacity_net_power_zero (prices : PriceFrame)
  (soc_start soc_max soc_min soc_target power_capacity eta : Q)
  (m : ConcreteModel) (a : Solution) (i : nat) :
  build_model prices soc_start soc_max soc_min soc_target power_capacity eta = Ok m ->
  power_capacity == 0 ->
  feasible m a -> (i < length prices)%nat ->
  a ems_power i == 0.
Proof.
  intros Hb Hc Hf Hi.
  destruct (feasible_step _ _ _ _ _ _ _ _ a i Hb Hf Hi) as (_ & _ & [Hl Hu] & _).
  rewrite Hc in Hl, Hu. lra.
Qed.

Lemma zero_capacity_infeasible_off_target (prices : PriceFrame)
  (soc_start soc_max soc_min soc_target power_capacity eta : Q)
  (m : ConcreteModel) (a : Solution) :
  build_model prices soc_start soc_max soc_min soc_target power_capacity eta = Ok m ->
  prices <> [] -> eta == 1 -> power_capacity == 0 ->
  ~ soc_start == soc_target ->
  ~ feasible m a.
Proof.
  intros Hb Hne He Hc Hst Hf. apply Hst.
  assert (HT : (0 < length prices)%nat) by (destruct prices; [congruence|simpl; lia]).
  destruct (feasible_step _ _ _ _ _ _ _ _ a (length prices - 1) Hb Hf)
    as (_ & _ & _ & _ & Hl); [lia|].
  destruct (Nat.eqb_spec (S (length prices - 1)) (length prices)); [|lia].
  rewrite <- Hl.
  rewrite (lossless_running_soc _ _ _ _ _ _ _ _ a (length prices - 1) Hb Hf He) by lia.
  rewrite sigma_zero; [ring|].
  intros k Hk. apply (zero_capacity_net_power_zero _ _ _ _ _ _ _ _ a k Hb Hc Hf). lia.
Qed.

(** C7, at the input [prices = [(consumption 1, production 2)]],
    [soc_start = soc_target = 20], [soc_min = 10], [soc_max = 90],
    [power_capacity = 0], efficiency 1: for every [t >= 0], charging [t]
    while discharging [t] is feasible and costs [-t]; the constructed model
    is unbounded below and has no optimal cost, 0 or other. *)
Theorem zero_capacity_cost_unbounded :
  exists m,
    build_model sell_above_buy_prices 20 90 10 20 0 1 = Ok m /\
    (forall t, 0 <= t ->
       feasible m (charge_and_discharge t) /\
       eval (charge_and_discharge t) (costs m) == - t) /\
    (forall c, ~ optimal_cost m c).
Proof.
  eexists. split; [reflexivity|].
  match goal with |- ?P /\ _ => assert (Hall : P) end.
  { intros t Ht. split.
    - apply (feasible_steps sell_above_buy_prices 20 90 10 20 0 1 _ _ eq_refl).
      intros i Hi. simpl in Hi. assert (i = 0%nat) by lia. subst i.
      unfold step_ok, running_soc, charge_and_discharge. cbn [Nat.eqb length
        sell_above_buy_prices sigma].
      repeat split; try lra. field.
    - cbn. ring. }
  split; [exact Hall|].
  intros c (a & (Hf & Hmin) & Hc).
  destruct (Hall 0) as [Hf0 Hc0]; [lra|].
  pose proof (Hmin _ Hf0) as H0. rewrite Hc, Hc0 in H0.
  destruct (Hall (1 - c)) as [Hf1 Hc1]; [lra|].
  pose proof (Hmin _ Hf1) as H1. rewrite Hc, Hc1 in H1.
  lra.
Qed.

(** With prices where buying never costs less than selling pays, zero
    capacity and start on target do give the optimal cost 0. *)
Lemma zero_capacity_sane_prices_cost_zero (prices : PriceFrame)
  (soc_start soc_max soc_min soc_target power_capacity eta : Q) (m : ConcreteModel) :
  build_model prices soc_start soc_max soc_min soc_target power_capacity eta = Ok m ->
  eta == 1 -> power_capacity == 0 ->
  soc_min <= soc_start -> soc_start <= soc_max -> soc_start == soc_target ->
  (forall i, (i < length prices)%nat ->
     nth i (map production prices) 0 <= nth i (map consumption prices) 0) ->
  optimal_cost m 0.
Proof.
  intros Hb He Hc Hmin Hmax Ht Hp.
  exists (fun _ _ => 0).
  assert (Hcost0 : eval (fun _ _ => 0) (costs m) == 0).
  { rewrite (build_model_inv _ _ _ _ _ _ _ _ Hb). cbn [costs].
    rewrite eval_cost_function. apply sigma_zero. intros; ring. }
  split; [split|exact Hcost0].
  - apply (feasible_steps _ _ _ _ _ _ _ _ _ Hb). intros i Hi.
    assert (Hsoc : running_soc soc_start eta (fun _ _ => 0) i == soc_start).
    { unfold running_soc. rewrite sigma_zero; [ring|].
      intros k _. rewrite He. field. }
    unfold step_ok. cbv beta.
    destruct (S i =? length prices)%nat; repeat split; try lra.
  - intros b Hf. rewrite Hcost0.
    rewrite (build_model_inv _ _ _ _ _ _ _ _ Hb). cbn [costs].
    rewrite eval_cost_function. apply sigma_nonneg. intros k Hk.
    destruct (feasible_step _ _ _ _ _ _ _ _ b k Hb Hf Hk) as (Hd & Hu & _ & Hn & _).
    pose proof (zero_capacity_net_power_zero _ _ _ _ _ _ _ _ b k Hb Hc Hf Hk) as Hz.
    specialize (Hp k Hk).
    assert (Hdown : b device_power_down k == - b device_power_up k) by lra.
    rewrite Hdown.
    assert (0 <= b device_power_up k
                 * (nth k (map consumption prices) 0 - nth k (map production prices) 0))
      by (apply Qmult_le_0_compat; lra).
    lra.
Qed.

(** ** The statements at concrete inputs *)

Lemma build_model_constructed (prices : PriceFrame)
  (soc_start soc_max soc_min soc_target power_capacity eta : Q) (m : ConcreteModel) :
  build_model prices soc_start soc_max soc_min soc_target power_capacity eta = Ok m ->
  m = constructed_model prices soc_start soc_max soc_min soc_target power_capacity eta.
Proof.
  apply build_model_inv.
Qed.

Lemma Qdiv_one (x : Q) : x / 1 == x.
Proof.
  field.
Qed.

Lemma script_model_built (soc_target : Q) :
  build_model script_prices 20 90 10 soc_target 10 1
  = Ok (constructed_model script_prices 20 90 10 soc_target 10 1).
Proof.
  destruct (build_model_ok script_prices 20 90 10 soc_target 10 1) as [m Hm].
  - intro H. discriminate H.
  - discriminate.
  - discriminate.
  - now rewrite <- (build_model_constructed _ _ _ _ _ _ _ _ Hm).
Qed.

Lemma charge_first_seven_feasible :
  feasible (constructed_model script_prices 20 90 10 90 10 1) charge_first_seven.
Proof.
  apply feasibleb_true. vm_compute. reflexivity.
Qed.

Lemma discharge_five_optimal :
  optimal_cost (constructed_model single_step_prices 20 90 10 15 10 1) (-35).
Proof.
  exists discharge_five. split; [split|].
  - apply feasibleb_true. vm_compute. reflexivity.
  - intros b Hf.
    pose proof (feasible_step single_step_prices 20 90 10 15 10 1 _ b 0 eq_refl Hf)
      as (Hd & Hu & _ & _ & Hs); [simpl; lia|].
    unfold running_soc in Hs. cbn in Hs |- *. rewrite Qdiv_one in Hs. lra.
  - vm_compute. reflexivity.
Qed.

Lemma discharge_five_optimal_lowered :
  optimal_cost
    (constructed_model (lower_sell_prices 1 single_step_prices) 20 90 10 15 10 1) (-30).
Proof.
  exists discharge_five. split; [split|].
  - apply feasibleb_true. vm_compute. reflexivity.
  - intros b Hf.
    pose proof (feasible_step (lower_sell_prices 1 single_step_prices)
                  20 90 10 15 10 1 _ b 0 eq_refl Hf)
      as (Hd & Hu & _ & _ & Hs); [simpl; lia|].
    unfold running_soc in Hs. cbn in Hs |- *. rewrite Qdiv_one in Hs. lra.
  - vm_compute. reflexivity.
Qed.

Lemma running_soc_bounded_before_final_step_witness :
  nth_error (device_energy_bounds (constructed_model script_prices 20 90 10 90 10 1)) 3
    = Some (10, soc_expr 20 1 3, 90) /\
  (forall a, eval a (soc_expr 20 1 3) == running_soc 20 1 a 3) /\
  (forall a, feasible (constructed_model script_prices 20 90 10 90 10 1) a ->
     10 <= running_soc 20 1 a 3 /\ running_soc 20 1 a 3 <= 90).
Proof.
  apply (running_soc_bounded_before_final_step script_prices 20 90 10 90 10 1).
  - apply script_model_built.
  - simpl. lia.
Defined.

Lemma objective_is_priced_power_witness :
  sense (constructed_model script_prices 20 90 10 90 10 1) = minimize /\
  eval charge_first_seven (costs (constructed_model script_prices 20 90 10 90 10 1))
  == sigma (fun i => charge_first_seven device_power_down i
                       * nth i (map production script_prices) 0
                     + charge_first_seven device_power_up i
                       * nth i (map consumption script_prices) 0)
           (length script_prices).
Proof.
  apply (objective_is_priced_power script_prices 20 90 10 90 10 1).
  apply script_model_built.
Defined.


Lemma net_power_is_charge_plus_discharge_witness :
  exists c power,
    schedule_simple_battery script_prices 20 90 10 90 10 1
      (solver_returning results_charge)
    = ([optimal], Ok (c, power)) /\
    length power = 24%nat /\
    power = map (fun i => Some (charge_first_seven ems_power i)) (seq 0 24).
Proof.
  apply (net_power_is_charge_plus_discharge script_prices 20 90 10 90 10 1
           (solver_returning results_charge)
           (constructed_model script_prices 20 90 10 90 10 1) results_charge).
  - apply script_model_built.
  - reflexivity.
Defined.

Lemma optimal_cost_monotone_in_sell_price_witness : -35 <= -30.
Proof.
  apply (optimal_cost_monotone_in_sell_price 1 single_step_prices 20 90 10 15 10 1
           (constructed_model single_step_prices 20 90 10 15 10 1)
           (constructed_model (lower_sell_prices 1 single_step_prices)
              20 90 10 15 10 1)).
  - reflexivity.
  - reflexivity.
  - reflexivity.
  - apply discharge_five_optimal.
  - apply discharge_five_optimal_lowered.
Defined.

Lemma no_candidate_still_returns_witness :
  exists planned_costs,
    value (initial_values (constructed_model script_prices 20 90 10 1000 10 1))
          (costs (constructed_model script_prices 20 90 10 1000 10 1))
    = Ok planned_costs /\
    schedule_simple_battery script_prices 20 90 10 1000 10 1
      (solver_returning results_infeasible)
    = ([infeasible],
       Ok (planned_costs,
           map (fun i => initial_values
                           (constructed_model script_prices 20 90 10 1000 10 1)
                           ems_power i)
               (seq 0 24))).
Proof.
  apply (no_candidate_still_returns script_prices 20 90 10 1000 10 1
           (solver_returning results_infeasible)
           (constructed_model script_prices 20 90 10 1000 10 1) results_infeasible).
  - apply script_model_built.
  - reflexivity.
  - reflexivity.
Defined.

Lemma no_candidate_returns_zeros_witness :
  exists c,
    schedule_simple_battery script_prices 20 90 10 1000 10 1
      (solver_returning results_infeasible)
    = ([infeasible], Ok (c, repeat (Some 0) 24)) /\
    c == 0.
Proof.
  destruct (no_candidate_returns_zeros script_prices 20 90 10 1000 10 1
              (solver_returning results_infeasible)
           (constructed_model script_prices 20 90 10 1000 10 1) results_infeasible
              (script_model_built 1000) eq_refl eq_refl) as (c & Hrun & Hc & _).
  exists c. split; [exact Hrun|exact Hc].
Defined.

(** * Further properties *)

(** ** More on [compute_soc_schedule] *)

Lemma sum_app (l1 l2 : list Q) : sum (l1 ++ l2) == sum l1 + sum l2.
Proof.
  induction l1 as [|x t IH]; simpl app.
  - unfold sum at 2. simpl. ring.
  - rewrite !sum_cons, IH. ring.
Qed.

(** The element formula, index 0 included. *)
Lemma nth_compute_soc_schedule_all (p : list Q) (s : Q) (k : nat) :
  (k <= length p)%nat ->
  nth k (compute_soc_schedule p s) 0 == s + sum (firstn k p).
Proof.
  intro Hk. destruct k as [|k].
  - simpl. unfold sum. simpl. ring.
  - apply nth_compute_soc_schedule. lia.
Qed.

Lemma sigma_le (f g : nat -> Q) (n : nat) :
  (forall k, (k < n)%nat -> f k <= g k) -> sigma f n <= sigma g n.
Proof.
  induction n as [|n IH]; intro H; simpl.
  - lra.
  - assert (sigma f n <= sigma g n) by (apply IH; intros; apply H; lia).
    assert (f n <= g n) by (apply H; lia).
    lra.
Qed.

(** The projection of a schedule given as a function of the step. *)
Lemma nth_compute_soc_schedule_seq (f : nat -> Q) (T : nat) (s : Q) (k : nat) :
  (k <= T)%nat ->
  nth k (compute_soc_schedule (map f (seq 0 T)) s) 0 == s + sigma f k.
Proof.
  intro Hk.
  assert (Hlen : length (map f (seq 0 T)) = T) by now rewrite length_map, length_seq.
  rewrite nth_compute_soc_schedule_all by (rewrite Hlen; lia).
  rewrite sum_firstn_sigma by (rewrite Hlen; lia).
  apply Qplus_comp; [reflexivity|].
  apply sigma_ext. intros i Hi. rewrite nth_map_seq by lia. reflexivity.
Qed.

(** ** How [schedule_simple_battery] ends *)

Lemma nonempty_length (prices : PriceFrame) : prices <> [] -> (0 < length prices)%nat.
Proof.
  destruct prices; [congruence|simpl; lia].
Qed.

Lemma up_bounds_constructed (power_capacity : Q) (index : list nat) :
  - power_capacity <= power_capacity ->
  construct_constraints (ems_derivative_bounds power_capacity) index
  = Ok (map (fun i => (- power_capacity, Ref ems_power i, power_capacity)) index).
Proof.
  intro H. unfold construct_constraints. apply mapM_total.
  intros i _. unfold ems_derivative_bounds. cbn [bind]. now apply check_bounds_ok.
Qed.

Lemma equalities_constructed (index : list nat) :
  construct_constraints device_derivative_equalities index
  = Ok (map (fun i => (0, Sub (Add (Ref device_power_up i) (Ref device_power_down i))
                              (Ref ems_power i), 0)) index).
Proof.
  unfold construct_constraints. now apply mapM_total.
Qed.

Lemma build_model_negative_capacity (prices : PriceFrame)
  (soc_start soc_max soc_min soc_target power_capacity eta : Q) :
  prices <> [] -> power_capacity < 0 ->
  build_model prices soc_start soc_max soc_min soc_target power_capacity eta
  = Raise InvalidConstraintError.
Proof.
  intros Hp Hc. unfold build_model, model_j.
  destruct prices as [|r t]; [congruence|].
  unfold construct_constraints at 1. cbn [length seq mapM].
  unfold ems_derivative_bounds at 1. cbn [bind]. unfold check_bounds at 1.
  destruct (Qle_bool (- power_capacity) power_capacity) eqn:E; [|reflexivity].
  apply Qle_bool_iff in E. lra.
Qed.

Lemma build_model_zero_efficiency (prices : PriceFrame)
  (soc_start soc_max soc_min soc_target power_capacity eta : Q) :
  eta == 0 -> prices <> [] -> 0 <= power_capacity ->
  build_model prices soc_start soc_max soc_min soc_target power_capacity eta
  = Raise ZeroDivisionError.
Proof.
  intros He Hp Hc. unfold build_model, model_j.
  rewrite up_bounds_constructed by lra. rewrite equalities_constructed.
  destruct prices as [|r t]; [congruence|].
  unfold construct_constraints. cbn [length seq mapM bind].
  unfold device_bounds at 1. cbn [Nat.add seq mapM bind].
  unfold stock_change at 1, div_const.
  apply Qeq_bool_iff in He. rewrite He. reflexivity.
Qed.

Lemma build_model_bounds_reversed (prices : PriceFrame)
  (soc_start soc_max soc_min soc_target power_capacity eta : Q) :
  ~ eta == 0 -> 0 <= power_capacity -> soc_max < soc_min -> (2 <= length prices)%nat ->
  build_model prices soc_start soc_max soc_min soc_target power_capacity eta
  = Raise InvalidConstraintError.
Proof.
  intros He Hc Hs HT. unfold build_model, model_j.
  rewrite up_bounds_constructed by lra. rewrite equalities_constructed.
  destruct (length prices) as [|n] eqn:El; [lia|].
  unfold construct_constraints. cbn [seq mapM bind].
  rewrite device_bounds_ok by exact He. cbn [bind].
  unfold energy_constraint at 1.
  destruct (Z.eqb_spec (Z.of_nat 0) (Z.of_nat (length prices) - 1)) as [E|E]; [lia|].
  unfold check_bounds at 1.
  destruct (Qle_bool soc_min soc_max) eqn:Eb; [|reflexivity].
  apply Qle_bool_iff in Eb. lra.
Qed.

Lemma build_model_empty (soc_start soc_max soc_min soc_target power_capacity eta : Q) :
  build_model [] soc_start soc_max soc_min soc_target power_capacity eta
  = Ok (constructed_model [] soc_start soc_max soc_min soc_target power_capacity eta).
Proof.
  reflexivity.
Qed.

Lemma build_model_built (prices : PriceFrame)
  (soc_start soc_max soc_min soc_target power_capacity eta : Q) :
  ~ eta == 0 -> 0 <= power_capacity ->
  soc_min <= soc_max \/ (length prices <= 1)%nat ->
  build_model prices soc_start soc_max soc_min soc_target power_capacity eta
  = Ok (constructed_model prices soc_start soc_max soc_min soc_target power_capacity eta).
Proof.
  intros He Hc Hs. unfold build_model, model_j.
  rewrite up_bounds_constructed by lra. rewrite equalities_constructed.
  unfold construct_constraints.
  rewrite (mapM_total _ (energy_constraint (length prices) soc_start soc_max soc_min
                           soc_target eta)).
  - reflexivity.
  - intros i Hi. apply in_seq in Hi.
    rewrite device_bounds_ok by exact He. cbn [bind].
    apply check_energy_constraint_ok.
    destruct Hs as [Hs|Hs]; [now left|right; lia].
Qed.

(** Every way the construction of the model can end. *)
Lemma build_model_cases (prices : PriceFrame)
  (soc_start soc_max soc_min soc_target power_capacity eta : Q) :
  (prices <> [] /\ power_capacity < 0 /\
   build_model prices soc_start soc_max soc_min soc_target power_capacity eta
   = Raise InvalidConstraintError) \/
  (prices <> [] /\ 0 <= power_capacity /\ eta == 0 /\
   build_model prices soc_start soc_max soc_min soc_target power_capacity eta
   = Raise ZeroDivisionError) \/
  ((2 <= length prices)%nat /\ 0 <= power_capacity /\ ~ eta == 0 /\ soc_max < soc_min /\
   build_model prices soc_start soc_max soc_min soc_target power_capacity eta
   = Raise InvalidConstraintError) \/
  build_model prices soc_start soc_max soc_min soc_target power_capacity eta
  = Ok (constructed_model prices soc_start soc_max soc_min soc_target power_capacity eta).
Proof.
  destruct prices as [|r t] eqn:Ep.
  { right. right. right. apply build_model_empty. }
  rewrite <- Ep. assert (Hp : prices <> []) by (rewrite Ep; discriminate). clear Ep.
  destruct (Qlt_le_dec power_capacity 0) as [Hc|Hc].
  { left. repeat split; auto. now apply build_model_negative_capacity. }
  destruct (Qeq_dec eta 0) as [He|He].
  { right. left. repeat split; auto. now apply build_model_zero_efficiency. }
  destruct (Qlt_le_dec soc_max soc_min) as [Hs|Hs].
  - destruct (le_lt_dec 2 (length prices)) as [HT|HT].
    + right. right. left. repeat split; auto. now apply build_model_bounds_reversed.
    + right. right. right. apply build_model_built; auto. right. lia.
  - right. right. right. apply build_model_built; auto.
Qed.

(** X4. With a conversion efficiency of 0, at least one step and a
    non-negative power capacity, the function raises [ZeroDivisionError]
    while the energy constraints are built: nothing is printed and the
    answer does not depend on the solver. *)
Theorem zero_efficiency_raises (prices : PriceFrame)
  (soc_start soc_max soc_min soc_target power_capacity eta : Q)
  (solve : ConcreteModel -> Result SolverResults) :
  eta == 0 -> prices <> [] -> 0 <= power_capacity ->
  schedule_simple_battery prices soc_start soc_max soc_min soc_target power_capacity
    eta solve
  = ([], Raise ZeroDivisionError).
Proof.
  intros He Hp Hc. unfold schedule_simple_battery.
  now rewrite build_model_zero_efficiency.
Qed.

(** X13. Bounds that contradict each other stop the construction of the
    model with [InvalidConstraintError]: a negative power capacity with at
    least one step, whatever the efficiency; and, with a non-negative
    capacity and a non-zero efficiency, [soc_min > soc_max] with at least
    two steps.  Nothing is printed and the solver plays no part. *)
Theorem contradictory_bounds_raise (prices : PriceFrame)
  (soc_start soc_max soc_min soc_target power_capacity eta : Q)
  (solve : ConcreteModel -> Result SolverResults) :
  (prices <> [] /\ power_capacity < 0) \/
  ((2 <= length prices)%nat /\ 0 <= power_capacity /\ ~ eta == 0 /\ soc_max < soc_min) ->
  schedule_simple_battery prices soc_start soc_max soc_min soc_target power_capacity
    eta solve
  = ([], Raise InvalidConstraintError).
Proof.
  intros [[Hp Hc]|(HT & Hc & He & Hs)]; unfold schedule_simple_battery.
  - now rewrite build_model_negative_capacity.
  - now rewrite build_model_bounds_reversed.
Qed.

(** X5. With a non-zero efficiency, a non-negative power capacity and
    [soc_min <= soc_max] the model is built and handed to the solver; when
    the solver then raises, the function raises the same exception and
    prints nothing. *)
Theorem solver_error_propagates (prices : PriceFrame)
  (soc_start soc_max soc_min soc_target power_capacity eta : Q)
  (solve : ConcreteModel -> Result SolverResults) (e : exn) :
  ~ eta == 0 -> 0 <= power_capacity -> soc_min <= soc_max ->
  solve (constructed_model prices soc_start soc_max soc_min soc_target
           power_capacity eta) = Raise e ->
  schedule_simple_battery prices soc_start soc_max soc_min soc_target power_capacity
    eta solve
  = ([], Raise e).
Proof.
  intros He Hc Hsoc Hs. unfold schedule_simple_battery.
  rewrite build_model_built by auto. now rewrite Hs.
Qed.

(** X6. The function raises only in three ways, all before anything is
    printed: [InvalidConstraintError] for contradictory bounds (a negative
    capacity, or [soc_min > soc_max] over two or more steps),
    [ZeroDivisionError] for a zero efficiency, both only with a non-empty
    price frame, or an exception of the solver itself on the constructed
    model.  Reading the objective and the variables back never raises. *)
Theorem schedule_raises_only_from_build_or_solver (prices : PriceFrame)
  (soc_start soc_max soc_min soc_target power_capacity eta : Q)
  (solve : ConcreteModel -> Result SolverResults)
  (printed : list TerminationCondition) (e : exn) :
  schedule_simple_battery prices soc_start soc_max soc_min soc_target power_capacity
    eta solve
  = (printed, Raise e) ->
  printed = [] /\
  ((e = InvalidConstraintError /\ prices <> [] /\
    (power_capacity < 0 \/ (soc_max < soc_min /\ (2 <= length prices)%nat))) \/
   (e = ZeroDivisionError /\ prices <> [] /\ eta == 0) \/
   solve (constructed_model prices soc_start soc_max soc_min soc_target
            power_capacity eta) = Raise e).
Proof.
  intro H.
  destruct (build_model_cases prices soc_start soc_max soc_min soc_target
              power_capacity eta)
    as [(Hp & Hc & Hb)|[(Hp & Hc & He & Hb)|[(HT & Hc & He & Hs & Hb)|Hb]]].
  - unfold schedule_simple_battery in H. rewrite Hb in H.
    inversion H. split; [reflexivity|]. left. auto.
  - unfold schedule_simple_battery in H. rewrite Hb in H.
    inversion H. split; [reflexivity|]. right. left. auto.
  - unfold schedule_simple_battery in H. rewrite Hb in H.
    inversion H. split; [reflexivity|]. left.
    split; [reflexivity|]. split; [|now right].
    intro Hnil. rewrite Hnil in HT. simpl in HT. lia.
  - destruct (solve (constructed_model prices soc_start soc_max soc_min soc_target
                       power_capacity eta)) as [results|e'] eqn:Hs.
    + rewrite (schedule_simple_battery_run _ _ _ _ _ _ _ _ _ _ Hb Hs) in H.
      discriminate H.
    + unfold schedule_simple_battery in H. rewrite Hb, Hs in H.
      inversion H. split; [reflexivity|]. now right; right.
Qed.

(** X7. With an empty price frame the model has no step, no division is
    attempted whatever the efficiency, and whenever the solver returns the
    function returns cost 0 and the empty schedule. *)
Theorem empty_prices_return_nothing
  (soc_start soc_max soc_min soc_target power_capacity eta : Q)
  (solve : ConcreteModel -> Result SolverResults) (results : SolverResults) :
  solve (constructed_model [] soc_start soc_max soc_min soc_target
           power_capacity eta) = Ok results ->
  schedule_simple_battery [] soc_start soc_max soc_min soc_target power_capacity
    eta solve
  = ([termination_condition results], Ok (0, [])).
Proof.
  intro Hs.
  now rewrite (schedule_simple_battery_run _ _ _ _ _ _ _ _ _ _
                 (build_model_empty _ _ _ _ _ _) Hs).
Qed.

(** ** What a feasible or optimal candidate gives the caller *)

Lemma schedule_run_candidate (prices : PriceFrame)
  (soc_start soc_max soc_min soc_target power_capacity eta : Q)
  (solve : ConcreteModel -> Result SolverResults)
  (m : ConcreteModel) (results : SolverResults) (s : Solution) (rest : list Solution) :
  build_model prices soc_start soc_max soc_min soc_target power_capacity eta = Ok m ->
  solve m = Ok results ->
  solution results = s :: rest ->
  schedule_simple_battery prices soc_start soc_max soc_min soc_target power_capacity
    eta solve
  = ([termination_condition results],
     Ok (eval s (costs m), map Some (map (s ems_power) (seq 0 (length prices))))).
Proof.
  intros Hb Hs Hsol.
  rewrite (schedule_simple_battery_run _ _ _ _ _ _ _ _ _ _ Hb Hs).
  unfold read_back. rewrite Hsol, map_map.
  now rewrite (build_model_inv _ _ _ _ _ _ _ _ Hb).
Qed.

(** X8. When the first candidate is feasible, the returned power schedule
    has one number per step and each lies within
    [[-power_capacity, power_capacity]]. *)
Theorem returned_power_within_capacity (prices : PriceFrame)
  (soc_start soc_max soc_min soc_target power_capacity eta : Q)
  (solve : ConcreteModel -> Result SolverResults)
  (m : ConcreteModel) (results : SolverResults) (s : Solution) (rest : list Solution) :
  build_model prices soc_start soc_max soc_min soc_target power_capacity eta = Ok m ->
  solve m = Ok results ->
  solution results = s :: rest ->
  feasible m s ->
  exists c p,
    schedule_simple_battery prices soc_start soc_max soc_min soc_target power_capacity
      eta solve
    = ([termination_condition results], Ok (c, map Some p)) /\
    length p = length prices /\
    Forall (fun q => - power_capacity <= q /\ q <= power_capacity) p.
Proof.
  intros Hb Hs Hsol Hf.
  exists (eval s (costs m)), (map (s ems_power) (seq 0 (length prices))).
  split; [apply (schedule_run_candidate _ _ _ _ _ _ _ _ _ _ _ _ Hb Hs Hsol)|].
  split; [now rewrite length_map, length_seq|].
  apply Forall_map, Forall_forall. intros i Hi. apply in_seq in Hi.
  destruct (feasible_step _ _ _ _ _ _ _ _ s i Hb Hf) as (_ & _ & Hn & _); [lia|].
  exact Hn.
Qed.



(** ** Conversion losses and reachability *)

(** With losses the stock change of a step is at most its net power. *)
Lemma lossy_stock_change_le_net (eta d u : Q) :
  0 < eta -> eta <= 1 -> d <= 0 -> 0 <= u -> d / eta + u * eta <= u + d.
Proof.
  intros H0 H1 Hd Hu.
  assert (Hdiv : d / eta <= d).
  { apply Qle_shift_div_r; [exact H0|].
    assert (0 <= (- d) * (1 - eta)) by (apply Qmult_le_0_compat; lra).
    lra. }
  assert (0 <= u * (1 - eta)) by (apply Qmult_le_0_compat; lra).
  lra.
Qed.

Lemma horizon_succ (n : nat) :
  inject_Z (Z.of_nat (S n)) == inject_Z (Z.of_nat n) + 1.
Proof.
  rewrite Nat2Z.inj_succ. unfold Z.succ. rewrite inject_Z_plus. reflexivity.
Qed.

Lemma sigma_upper (f : nat -> Q) (c : Q) (n : nat) :
  (forall k, (k < n)%nat -> f k <= c) -> sigma f n <= inject_Z (Z.of_nat n) * c.
Proof.
  induction n as [|n IH]; intro H.
  - change (inject_Z (Z.of_nat 0)) with 0. simpl. lra.
  - rewrite horizon_succ. cbn [sigma].
    assert (sigma f n <= inject_Z (Z.of_nat n) * c) by (apply IH; intros; apply H; lia).
    assert (f n <= c) by (apply H; lia).
    lra.
Qed.

Lemma sigma_lower (f : nat -> Q) (c : Q) (n : nat) :
  (forall k, (k < n)%nat -> c <= f k) -> inject_Z (Z.of_nat n) * c <= sigma f n.
Proof.
  induction n as [|n IH]; intro H.
  - change (inject_Z (Z.of_nat 0)) with 0. simpl. lra.
  - rewrite horizon_succ. cbn [sigma].
    assert (inject_Z (Z.of_nat n) * c <= sigma f n) by (apply IH; intros; apply H; lia).
    assert (c <= f n) by (apply H; lia).
    lra.
Qed.

Lemma running_soc_le_projection (prices : PriceFrame)
  (soc_start soc_max soc_min soc_target power_capacity eta : Q)
  (m : ConcreteModel) (a : Solution) (k : nat) :
  0 < eta -> eta <= 1 ->
  build_model prices soc_start soc_max soc_min soc_target power_capacity eta = Ok m ->
  feasible m a -> (k < length prices)%nat ->
  running_soc soc_start eta a k <= soc_start + sigma (a ems_power) (S k).
Proof.
  intros H0 H1 Hb Hf Hk. unfold running_soc.
  assert (sigma (fun i => a device_power_down i / eta + a device_power_up i * eta) (S k)
          <= sigma (a ems_power) (S k)); [|lra].
  apply sigma_le. intros i Hi.
  destruct (feasible_step _ _ _ _ _ _ _ _ a i Hb Hf) as (Hd & Hu & _ & Hn & _); [lia|].
  rewrite Hn. now apply lossy_stock_change_le_net.
Qed.

Lemma final_running_soc (prices : PriceFrame)
  (soc_start soc_max soc_min soc_target power_capacity eta : Q)
  (m : ConcreteModel) (a : Solution) :
  build_model prices soc_start soc_max soc_min soc_target power_capacity eta = Ok m ->
  feasible m a -> prices <> [] ->
  running_soc soc_start eta a (length prices - 1) == soc_target.
Proof.
  intros Hb Hf Hp.
  assert (HT : (0 < length prices)%nat) by (destruct prices; [congruence|simpl; lia]).
  destruct (feasible_step _ _ _ _ _ _ _ _ a (length prices - 1) Hb Hf)
    as (_ & _ & _ & _ & Hl); [lia|].
  destruct (Nat.eqb_spec (S (length prices - 1)) (length prices)); [exact Hl|lia].
Qed.


(** X12. A feasible assignment exists only if the target can be reached:
    with an efficiency in (0, 1], [soc_target] is at most
    [soc_start + T * power_capacity]; with efficiency 1 it is also at least
    [soc_start - T * power_capacity]. *)
Theorem target_within_reach (prices : PriceFrame)
  (soc_start soc_max soc_min soc_target power_capacity eta : Q)
  (m : ConcreteModel) (a : Solution) :
  0 < eta -> eta <= 1 -> prices <> [] ->
  build_model prices soc_start soc_max soc_min soc_target power_capacity eta = Ok m ->
  feasible m a ->
  soc_target <= soc_start + horizon prices * power_capacity /\
  (eta == 1 -> soc_start - horizon prices * power_capacity <= soc_target).
Proof.
  intros H0 H1 Hp Hb Hf.
  assert (HT : (0 < length prices)%nat) by (destruct prices; [congruence|simpl; lia]).
  pose proof (final_running_soc _ _ _ _ _ _ _ _ a Hb Hf Hp) as Hfin.
  assert (Hcap : forall k, (k < length prices)%nat ->
            - power_capacity <= a ems_power k /\ a ems_power k <= power_capacity).
  { intros k Hk.
    now destruct (feasible_step _ _ _ _ _ _ _ _ a k Hb Hf Hk) as (_ & _ & Hn & _). }
  unfold horizon. split.
  - pose proof (running_soc_le_projection _ _ _ _ _ _ _ _ a (length prices - 1)
                  H0 H1 Hb Hf ltac:(lia)) as Hle.
    replace (S (length prices - 1)) with (length prices) in Hle by lia.
    assert (sigma (a ems_power) (length prices)
            <= inject_Z (Z.of_nat (length prices)) * power_capacity)
      by (apply sigma_upper; intros; now apply Hcap).
    lra.
  - intro He.
    pose proof (lossless_running_soc _ _ _ _ _ _ _ _ a (length prices - 1) Hb Hf He
                  ltac:(lia)) as Heq.
    replace (S (length prices - 1)) with (length prices) in Heq by lia.
    assert (inject_Z (Z.of_nat (length prices)) * (- power_capacity)
            <= sigma (a ems_power) (length prices))
      by (apply sigma_lower; intros; now apply Hcap).
    lra.
Qed.

(** X14. When the device starts on its target, within its SoC bounds and
    with a non-negative capacity, doing nothing is feasible and costs 0, so
    the optimal cost is never positive. *)
Theorem idle_is_feasible_on_target (prices : PriceFrame)
  (soc_start soc_max soc_min soc_target power_capacity eta : Q)
  (m : ConcreteModel) :
  build_model prices soc_start soc_max soc_min soc_target power_capacity eta = Ok m ->
  0 <= power_capacity ->
  soc_min <= soc_start -> soc_start <= soc_max -> soc_start == soc_target ->
  feasible m idle /\
  eval idle (costs m) == 0 /\
  forall c, optimal_cost m c -> c <= 0.
Proof.
  intros Hb Hc Hmin Hmax Ht.
  assert (Hf : feasible m idle).
  { apply (feasible_steps _ _ _ _ _ _ _ _ _ Hb). intros i Hi.
    assert (Hsoc : running_soc soc_start eta idle i == soc_start).
    { unfold running_soc, idle. rewrite sigma_zero; [ring|].
      intros k _. unfold Qdiv. ring. }
    unfold step_ok, idle in *. cbv beta.
    destruct (S i =? length prices)%nat; repeat split; try lra. }
  assert (Hcost : eval idle (costs m) == 0).
  { rewrite (build_model_inv _ _ _ _ _ _ _ _ Hb). cbn [costs].
    rewrite eval_cost_function. apply sigma_zero. intros; unfold idle; ring. }
  split; [exact Hf|]. split; [exact Hcost|].
  intros c (b & (_ & Hmin') & Hcb).
  rewrite <- Hcb, <- Hcost. now apply Hmin'.
Qed.

(** ** Prices and the objective *)

(** X15. When every sell price is non-negative and no higher than the buy
    price of its step, the cost of a feasible assignment is at least
    [- power_capacity] times the sum of the sell prices: the model is
    bounded below. *)
Theorem cost_bounded_below (prices : PriceFrame)
  (soc_start soc_max soc_min soc_target power_capacity eta : Q)
  (m : ConcreteModel) (a : Solution) :
  build_model prices soc_start soc_max soc_min soc_target power_capacity eta = Ok m ->
  (forall i, (i < length prices)%nat ->
     0 <= nth i (map production prices) 0 /\
     nth i (map production prices) 0 <= nth i (map consumption prices) 0) ->
  feasible m a ->
  - power_capacity * sigma (fun i => nth i (map production prices) 0) (length prices)
  <= eval a (costs m).
Proof.
  intros Hb Hp Hf.
  rewrite (build_model_inv _ _ _ _ _ _ _ _ Hb). cbn [costs].
  rewrite eval_cost_function, <- sigma_scale.
  apply sigma_le. intros k Hk.
  destruct (feasible_step _ _ _ _ _ _ _ _ a k Hb Hf Hk) as (Hd & Hu & [Hl _] & Hn & _).
  destruct (Hp k Hk) as [Hs Hsb].
  rewrite Hn in Hl.
  assert (0 <= (a device_power_up k + a device_power_down k + power_capacity)
               * nth k (map production prices) 0)
    by (apply Qmult_le_0_compat; lra).
  assert (0 <= a device_power_up k
               * (nth k (map consumption prices) 0 - nth k (map production prices) 0))
    by (apply Qmult_le_0_compat; lra).
  lra.
Qed.

Lemma lossless_running_soc_net (soc_start eta : Q) (a : Solution) (i : nat) :
  eta == 1 ->
  (forall k, (k <= i)%nat -> a ems_power k == a device_power_up k + a device_power_down k) ->
  running_soc soc_start eta a i == soc_start + sigma (a ems_power) (S i).
Proof.
  intros He Hn. unfold running_soc.
  apply Qplus_comp; [reflexivity|].
  apply sigma_ext. intros k Hk. rewrite He, Hn by lia. field.
Qed.

Lemma netted_cases (a : Solution) (i : nat) :
  (0 <= a ems_power i /\ netted a device_power_up i = a ems_power i
   /\ netted a device_power_down i = 0) \/
  (a ems_power i < 0 /\ netted a device_power_up i = 0
   /\ netted a device_power_down i = a ems_power i).
Proof.
  unfold netted. destruct (Qle_bool 0 (a ems_power i)) eqn:E.
  - left. apply Qle_bool_iff in E. auto.
  - right. split; [|auto]. apply Qnot_le_lt. intro H.
    apply Qle_bool_iff in H. congruence.
Qed.

(** X16. With efficiency 1 and no sell price above the buy price of its
    step, netting charge against discharge keeps an assignment feasible,
    keeps its net power, and does not raise its cost; after netting, charge
    or discharge is zero in every step. *)
Theorem netting_is_never_worse (prices : PriceFrame)
  (soc_start soc_max soc_min soc_target power_capacity eta : Q)
  (m : ConcreteModel) (a : Solution) :
  build_model prices soc_start soc_max soc_min soc_target power_capacity eta = Ok m ->
  eta == 1 ->
  (forall i, (i < length prices)%nat ->
     nth i (map production prices) 0 <= nth i (map consumption prices) 0) ->
  feasible m a ->
  feasible m (netted a) /\
  eval (netted a) (costs m) <= eval a (costs m) /\
  (forall i, netted a ems_power i = a ems_power i) /\
  (forall i, netted a device_power_up i == 0 \/ netted a device_power_down i == 0).
Proof.
  intros Hb He Hp Hf.
  assert (Hnet : forall k, netted a ems_power k
                           == netted a device_power_up k + netted a device_power_down k).
  { intro k. destruct (netted_cases a k) as [(_ & -> & ->)|(_ & -> & ->)];
      simpl; ring. }
  split; [|split; [|split]].
  - apply (feasible_steps _ _ _ _ _ _ _ _ _ Hb). intros i Hi.
    destruct (feasible_step _ _ _ _ _ _ _ _ a i Hb Hf Hi) as (Hd & Hu & Hc & Hn & Hs).
    assert (Hsoc : running_soc soc_start eta (netted a) i
                   == running_soc soc_start eta a i).
    { rewrite (lossless_running_soc_net _ _ (netted a) i He) by (intros; apply Hnet).
      rewrite (lossless_running_soc _ _ _ _ _ _ _ _ a i Hb Hf He Hi).
      reflexivity. }
    unfold step_ok.
    split; [|split; [|split; [|split]]].
    + destruct (netted_cases a i) as [(_ & _ & ->)|(Hlt & _ & ->)]; lra.
    + destruct (netted_cases a i) as [(Hge & -> & _)|(_ & -> & _)]; lra.
    + exact Hc.
    + apply Hnet.
    + destruct (S i =? length prices)%nat.
      * now rewrite Hsoc.
      * split; rewrite Hsoc; apply Hs.
  - rewrite (build_model_inv _ _ _ _ _ _ _ _ Hb). cbn [costs].
    rewrite !eval_cost_function. apply sigma_le. intros k Hk.
    destruct (feasible_step _ _ _ _ _ _ _ _ a k Hb Hf Hk) as (Hd & Hu & _ & Hn & _).
    specialize (Hp k Hk).
    destruct (netted_cases a k) as [(_ & -> & ->)|(_ & -> & ->)]; rewrite Hn.
    + assert (0 <= (- a device_power_down k)
                   * (nth k (map consumption prices) 0
                      - nth k (map production prices) 0))
        by (apply Qmult_le_0_compat; lra).
      lra.
    + assert (0 <= a device_power_up k
                   * (nth k (map consumption prices) 0
                      - nth k (map production prices) 0))
        by (apply Qmult_le_0_compat; lra).
      lra.
  - reflexivity.
  - intro i. destruct (netted_cases a i) as [(_ & _ & ->)|(_ & -> & _)];
      [right|left]; reflexivity.
Qed.

Lemma shift_prices_length (delta : Q) (prices : PriceFrame) :
  length (shift_prices delta prices) = length prices.
Proof.
  apply length_map.
Qed.

Lemma shift_prices_columns (delta : Q) (prices : PriceFrame) (i : nat) :
  (i < length prices)%nat ->
  nth i (map production (shift_prices delta prices)) 0
  = nth i (map production prices) 0 + delta /\
  nth i (map consumption (shift_prices delta prices)) 0
  = nth i (map consumption prices) 0 + delta.
Proof.
  unfold shift_prices. rewrite !map_map. revert i.
  induction prices as [|r t IH]; intros i Hi; simpl in Hi; [lia|].
  destruct i as [|i]; [split; reflexivity|].
  simpl. apply IH. lia.
Qed.

Lemma feasible_shift_prices (delta : Q) (prices : PriceFrame)
  (soc_start soc_max soc_min soc_target power_capacity eta : Q)
  (m m' : ConcreteModel) (a : Solution) :
  build_model prices soc_start soc_max soc_min soc_target power_capacity eta = Ok m ->
  build_model (shift_prices delta prices) soc_start soc_max soc_min soc_target
    power_capacity eta = Ok m' ->
  (feasible m a <-> feasible m' a).
Proof.
  intros Hb Hb'.
  rewrite (feasible_steps _ _ _ _ _ _ _ _ a Hb), (feasible_steps _ _ _ _ _ _ _ _ a Hb').
  rewrite shift_prices_length. reflexivity.
Qed.

(** X17. With efficiency 1, raising every buy and sell price by the same
    [delta] changes the cost of every feasible assignment by
    [delta * (soc_target - soc_start)], so the same assignments are
    optimal before and after. *)
Theorem uniform_price_shift (delta : Q) (prices : PriceFrame)
  (soc_start soc_max soc_min soc_target power_capacity eta : Q)
  (m m' : ConcreteModel) :
  eta == 1 -> prices <> [] ->
  build_model prices soc_start soc_max soc_min soc_target power_capacity eta = Ok m ->
  build_model (shift_prices delta prices) soc_start soc_max soc_min soc_target
    power_capacity eta = Ok m' ->
  (forall a, feasible m a ->
     eval a (costs m') == eval a (costs m) + delta * (soc_target - soc_start)) /\
  (forall a, is_optimal m a <-> is_optimal m' a).
Proof.
  intros He Hp Hb Hb'.
  assert (HT : (0 < length prices)%nat) by (destruct prices; [congruence|simpl; lia]).
  assert (Hcost : forall a, feasible m a ->
            eval a (costs m') == eval a (costs m) + delta * (soc_target - soc_start)).
  { intros a Hf.
    rewrite (build_model_inv _ _ _ _ _ _ _ _ Hb), (build_model_inv _ _ _ _ _ _ _ _ Hb').
    cbn [costs]. rewrite !eval_cost_function, shift_prices_length.
    pose proof (final_running_soc _ _ _ _ _ _ _ _ a Hb Hf Hp) as Hfin.
    rewrite (lossless_running_soc _ _ _ _ _ _ _ _ a (length prices - 1) Hb Hf He)
      in Hfin by lia.
    replace (S (length prices - 1)) with (length prices) in Hfin by lia.
    assert (Hd : soc_target - soc_start == sigma (a ems_power) (length prices)) by lra.
    rewrite Hd, <- sigma_scale, <- sigma_plus.
    apply sigma_ext. intros k Hk.
    destruct (shift_prices_columns delta prices k Hk) as [-> ->].
    destruct (feasible_step _ _ _ _ _ _ _ _ a k Hb Hf Hk) as (_ & _ & _ & Hn & _).
    rewrite Hn. ring. }
  split; [exact Hcost|].
  intro a. unfold is_optimal. split; intros [Hf Hmin].
  - split; [now apply (feasible_shift_prices delta _ _ _ _ _ _ _ _ _ a Hb Hb')|].
    intros b Hfb.
    apply (feasible_shift_prices delta _ _ _ _ _ _ _ _ _ b Hb Hb') in Hfb.
    rewrite (Hcost a Hf), (Hcost b Hfb). specialize (Hmin b Hfb). lra.
  - apply (feasible_shift_prices delta _ _ _ _ _ _ _ _ _ a Hb Hb') in Hf.
    split; [exact Hf|].
    intros b Hfb.
    pose proof (proj1 (feasible_shift_prices delta _ _ _ _ _ _ _ _ _ b Hb Hb') Hfb)
      as Hfb'.
    specialize (Hmin b Hfb'). rewrite (Hcost a Hf), (Hcost b Hfb) in Hmin. lra.
Qed.

(** ** The variables an energy constraint mentions *)

Lemma refs_fold_left_Add (l : list Expr) (e0 : Expr) :
  refs (fold_left Add l e0) = refs e0 ++ flat_map refs l.
Proof.
  revert e0. induction l as [|e t IH]; intro e0; simpl.
  - now rewrite app_nil_r.
  - rewrite IH. cbn [refs]. now rewrite app_assoc.
Qed.

Lemma refs_soc_expr (soc_start eta : Q) (i : nat) :
  refs (soc_expr soc_start eta i)
  = flat_map (fun k => [(device_power_down, k); (device_power_up, k)]) (seq 0 (S i)).
Proof.
  unfold soc_expr, sum_expr. rewrite Nat.add_1_r. cbn [refs app].
  rewrite refs_fold_left_Add. cbn [refs app].
  generalize (seq 0 (S i)) as l.
  induction l as [|k t IH]; [reflexivity|].
  cbn [map flat_map]. rewrite IH. reflexivity.
Qed.

(** X18. The energy constraint of step [i] mentions exactly the discharge
    and charge variables of the steps 0 to [i], each once and in step order
    ([2 * (i + 1)] references): never the net power, never a later step. *)
Theorem energy_constraint_mentions_past_steps (prices : PriceFrame)
  (soc_start soc_max soc_min soc_target power_capacity eta : Q)
  (m : ConcreteModel) (i : nat) :
  build_model prices soc_start soc_max soc_min soc_target power_capacity eta = Ok m ->
  (i < length prices)%nat ->
  exists lower body upper,
    nth_error (device_energy_bounds m) i = Some (lower, body, upper) /\
    refs body
    = flat_map (fun k => [(device_power_down, k); (device_power_up, k)]) (seq 0 (S i)) /\
    length (refs body) = (2 * (i + 1))%nat /\
    forall x k, In (x, k) (refs body) -> x <> ems_power /\ (k <= i)%nat.
Proof.
  intros Hb Hi.
  assert (Hn : nth_error (device_energy_bounds m) i
               = Some (energy_constraint (length prices) soc_start soc_max soc_min
                         soc_target eta i)).
  { rewrite (build_model_inv _ _ _ _ _ _ _ _ Hb). cbn [device_energy_bounds].
    now apply nth_error_map_seq. }
  assert (Hlen : forall l : list nat,
            length (flat_map (fun k => [(device_power_down, k); (device_power_up, k)]) l)
            = (2 * length l)%nat).
  { induction l as [|k t IH]; [reflexivity|]. cbn [flat_map app length]. lia. }
  assert (Hin : forall x k,
            In (x, k) (flat_map (fun k => [(device_power_down, k); (device_power_up, k)])
                         (seq 0 (S i))) ->
            x <> ems_power /\ (k <= i)%nat).
  { intros x k H. apply in_flat_map in H. destruct H as (k' & Hk' & H).
    apply in_seq in Hk'.
    destruct H as [H|[H|[]]]; inversion H; subst; split; try discriminate; lia. }
  unfold energy_constraint in Hn.
  destruct (Z.of_nat i =? Z.of_nat (length prices) - 1)%Z;
    do 3 eexists; (split; [exact Hn|]); rewrite refs_soc_expr;
    (split; [reflexivity|]); (split; [rewrite Hlen, length_seq; lia|exact Hin]).
Qed.

(** ** The script *)

Lemma numbers_map_Some (p : list Q) : numbers (map Some p) = Some p.
Proof.
  induction p as [|q t IH]; simpl; [reflexivity|]. now rewrite IH.
Qed.

(** X19. Whenever the solver returns on the script's model, the script
    finishes without an exception and prints four lines: the termination
    condition, the cost, a power schedule of 24 numbers and a SoC schedule of
    25 numbers that starts at 20.  When the solver returned no candidate,
    the printed cost is 0 and the printed SoC schedule is 20 throughout. *)
Theorem script_finishes (solve : ConcreteModel -> Result SolverResults)
  (results : SolverResults) :
  solve (constructed_model script_prices 20 90 10 90 10 1) = Ok results ->
  exists c power soc,
    script solve
    = ([PrintedStatus (termination_condition results); PrintedCosts c;
        PrintedPower (map Some power); PrintedSoC soc], Finished) /\
    length power = 24%nat /\
    length soc = 25%nat /\
    nth_error soc 0 = Some 20 /\
    (solution results = [] ->
     c == 0 /\ forall k, (k <= 24)%nat -> nth k soc 0 == 20).
Proof.
  intro Hs.
  pose proof (schedule_simple_battery_run script_prices 20 90 10 90 10 1 solve _ results
                (script_model_built 90) Hs) as Hrun.
  exists (eval (read_back results) (cost_function script_prices)),
         (map (read_back results ems_power) (seq 0 24)),
         (compute_soc_schedule (map (read_back results ems_power) (seq 0 24)) 20).
  split; [|split; [|split; [|split]]].
  - unfold script. cbv zeta. rewrite Hrun.
    change (length script_prices) with 24%nat.
    rewrite <- (map_map (read_back results ems_power) Some), numbers_map_Some.
    reflexivity.
  - now rewrite length_map, length_seq.
  - now rewrite compute_soc_schedule_length, length_map, length_seq.
  - reflexivity.
  - intro Hsol. unfold read_back. rewrite Hsol. split.
    + rewrite eval_cost_function. apply sigma_zero. intros; ring.
    + intros k Hk. rewrite nth_compute_soc_schedule_seq by exact Hk.
      rewrite sigma_zero; [ring|]. intros; reflexivity.
Qed.

(** ** The further statements at concrete inputs *)

Lemma discharge_five_is_optimal :
  is_optimal (constructed_model single_step_prices 20 90 10 15 10 1) discharge_five.
Proof.
  split.
  - apply feasibleb_true. vm_compute. reflexivity.
  - intros b Hf.
    pose proof (feasible_step single_step_prices 20 90 10 15 10 1 _ b 0 eq_refl Hf)
      as (Hd & Hu & _ & _ & Hs); [simpl; lia|].
    unfold running_soc in Hs. cbn in Hs |- *. rewrite Qdiv_one in Hs. lra.
Qed.

Lemma charge_8_discharge_12_feasible :
  feasible (constructed_model single_step_prices 20 90 0 0 5 (1 # 2))
    charge_8_discharge_12.
Proof.
  apply feasibleb_true. vm_compute. reflexivity.
Qed.

Lemma charge_and_discharge_100_feasible :
  feasible (constructed_model single_step_prices 20 90 10 20 10 1)
    (charge_and_discharge 100).
Proof.
  apply feasibleb_true. vm_compute. reflexivity.
Qed.

Lemma single_step_prices_sane (i : nat) :
  (i < length single_step_prices)%nat ->
  0 <= nth i (map production single_step_prices) 0 /\
  nth i (map production single_step_prices) 0
  <= nth i (map consumption single_step_prices) 0.
Proof.
  intro Hi. simpl in Hi. assert (i = 0%nat) by lia. subst i.
  simpl. split; lra.
Qed.

Lemma zero_efficiency_raises_witness :
  schedule_simple_battery single_step_prices 20 90 10 20 10 0
    (solver_returning results_charge)
  = ([], Raise ZeroDivisionError).
Proof.
  apply (zero_efficiency_raises single_step_prices 20 90 10 20 10 0).
  - reflexivity.
  - discriminate.
  - discriminate.
Defined.

Lemma contradictory_bounds_raise_witness :
  schedule_simple_battery single_step_prices 20 90 10 20 (-1) 1
    (solver_returning results_charge)
  = ([], Raise InvalidConstraintError).
Proof.
  apply (contradictory_bounds_raise single_step_prices 20 90 10 20 (-1) 1).
  left. split; [discriminate|reflexivity].
Defined.

Lemma solver_error_propagates_witness :
  schedule_simple_battery single_step_prices 20 90 10 20 10 1 solver_unavailable
  = ([], Raise ApplicationError).
Proof.
  apply (solver_error_propagates single_step_prices 20 90 10 20 10 1
           solver_unavailable ApplicationError).
  - intro H. discriminate H.
  - discriminate.
  - discriminate.
  - reflexivity.
Defined.

Lemma schedule_raises_only_from_build_or_solver_witness :
  [] = @nil TerminationCondition /\
  ((ApplicationError = InvalidConstraintError /\ single_step_prices <> [] /\
    (10 < 0 \/ (90 < 10 /\ (2 <= length single_step_prices)%nat))) \/
   (ApplicationError = ZeroDivisionError /\ single_step_prices <> [] /\ 1 == 0) \/
   solver_unavailable (constructed_model single_step_prices 20 90 10 20 10 1)
   = Raise ApplicationError).
Proof.
  apply (schedule_raises_only_from_build_or_solver single_step_prices 20 90 10 20 10 1
           solver_unavailable [] ApplicationError).
  reflexivity.
Defined.

Lemma empty_prices_return_nothing_witness :
  schedule_simple_battery [] 20 90 10 20 10 0 (solver_returning results_infeasible)
  = ([infeasible], Ok (0, [])).
Proof.
  apply (empty_prices_return_nothing 20 90 10 20 10 0
           (solver_returning results_infeasible) results_infeasible).
  reflexivity.
Defined.

Lemma returned_power_within_capacity_witness :
  exists c p,
    schedule_simple_battery script_prices 20 90 10 90 10 1
      (solver_returning results_charge)
    = ([optimal], Ok (c, map Some p)) /\
    length p = 24%nat /\
    Forall (fun q => - (10) <= q /\ q <= 10) p.
Proof.
  apply (returned_power_within_capacity script_prices 20 90 10 90 10 1
           (solver_returning results_charge)
           (constructed_model script_prices 20 90 10 90 10 1)
           results_charge charge_first_seven []).
  - apply script_model_built.
  - reflexivity.
  - reflexivity.
  - apply charge_first_seven_feasible.
Defined.




Lemma target_within_reach_witness :
  0 <= 20 + horizon single_step_prices * 5.
Proof.
  apply (proj1 (target_within_reach single_step_prices 20 90 0 0 5 (1 # 2)
                  (constructed_model single_step_prices 20 90 0 0 5 (1 # 2))
                  charge_8_discharge_12 eq_refl ltac:(discriminate)
                  ltac:(discriminate) eq_refl charge_8_discharge_12_feasible)).
Defined.

Lemma idle_is_feasible_on_target_witness :
  feasible (constructed_model single_step_prices 20 90 10 20 10 1) idle.
Proof.
  apply (idle_is_feasible_on_target single_step_prices 20 90 10 20 10 1).
  - reflexivity.
  - discriminate.
  - discriminate.
  - discriminate.
  - reflexivity.
Defined.

Lemma cost_bounded_below_witness :
  - (10) * sigma (fun i => nth i (map production single_step_prices) 0)
             (length single_step_prices)
  <= eval discharge_five (costs (constructed_model single_step_prices 20 90 10 15 10 1)).
Proof.
  apply (cost_bounded_below single_step_prices 20 90 10 15 10 1).
  - reflexivity.
  - apply single_step_prices_sane.
  - apply discharge_five_is_optimal.
Defined.

Lemma netting_is_never_worse_witness :
  eval (netted (charge_and_discharge 100))
       (costs (constructed_model single_step_prices 20 90 10 20 10 1))
  <= eval (charge_and_discharge 100)
          (costs (constructed_model single_step_prices 20 90 10 20 10 1)).
Proof.
  apply (netting_is_never_worse single_step_prices 20 90 10 20 10 1).
  - reflexivity.
  - reflexivity.
  - intros i Hi. apply single_step_prices_sane, Hi.
  - apply charge_and_discharge_100_feasible.
Defined.

Lemma uniform_price_shift_witness :
  is_optimal (constructed_model (shift_prices 1 single_step_prices) 20 90 10 15 10 1)
    discharge_five.
Proof.
  apply (proj2 (uniform_price_shift 1 single_step_prices 20 90 10 15 10 1
                  (constructed_model single_step_prices 20 90 10 15 10 1)
                  (constructed_model (shift_prices 1 single_step_prices)
                     20 90 10 15 10 1)
                  eq_refl ltac:(discriminate) eq_refl eq_refl) discharge_five).
  apply discharge_five_is_optimal.
Defined.

Lemma energy_constraint_mentions_past_steps_witness :
  exists lower body upper,
    nth_error (device_energy_bounds (constructed_model script_prices 20 90 10 90 10 1)) 3
    = Some (lower, body, upper) /\
    refs body
    = flat_map (fun k => [(device_power_down, k); (device_power_up, k)]) (seq 0 4) /\
    length (refs body) = 8%nat /\
    forall x k, In (x, k) (refs body) -> x <> ems_power /\ (k <= 3)%nat.
Proof.
  apply (energy_constraint_mentions_past_steps script_prices 20 90 10 90 10 1).
  - apply script_model_built.
  - simpl. lia.
Defined.

Lemma script_finishes_witness :
  exists c power soc,
    script (solver_returning results_infeasible)
    = ([PrintedStatus infeasible; PrintedCosts c; PrintedPower (map Some power);
        PrintedSoC soc], Finished) /\
    length power = 24%nat /\
    length soc = 25%nat /\
    nth_error soc 0 = Some 20 /\
    (solution results_infeasible = [] ->
     c == 0 /\ forall k, (k <= 24)%nat -> nth k soc 0 == 20).
Proof.
  apply (script_finishes (solver_returning results_infeasible) results_infeasible).
  reflexivity.
Defined.

(** * [compute_soc_schedule] on 64-bit integers *)

(** ** Two's-complement arithmetic *)

Lemma wrap64_range (z : Z) : in_int64 (wrap64 z).
Proof.
  unfold in_int64, int64_min, int64_max, wrap64.
  pose proof (Z.mod_pos_bound (z + 2 ^ 63) (2 ^ 64) ltac:(lia)). lia.
Qed.

Lemma wrap64_id (z : Z) : in_int64 z -> wrap64 z = z.
Proof.
  unfold in_int64, int64_min, int64_max, wrap64. intro H.
  rewrite Z.mod_small by lia. lia.
Qed.

Lemma wrap64_congr (a b : Z) :
  (a mod 2 ^ 64 = b mod 2 ^ 64)%Z -> wrap64 a = wrap64 b.
Proof.
  intro H. unfold wrap64.
  rewrite (Zplus_mod a), (Zplus_mod b), H. reflexivity.
Qed.

Lemma wrap64_mod (z : Z) : (wrap64 z mod 2 ^ 64 = z mod 2 ^ 64)%Z.
Proof.
  unfold wrap64. rewrite Zminus_mod_idemp_l. f_equal. lia.
Qed.

Lemma wrap64_add_l (a b : Z) : wrap64 (wrap64 a + b) = wrap64 (a + b).
Proof.
  apply wrap64_congr. rewrite Zplus_mod, wrap64_mod, <- Zplus_mod. reflexivity.
Qed.

Lemma wrap64_add_r (a b : Z) : wrap64 (a + wrap64 b) = wrap64 (a + b).
Proof.
  rewrite Z.add_comm, wrap64_add_l. f_equal. lia.
Qed.

Lemma wrap64_sub (a b : Z) : wrap64 (wrap64 a - wrap64 b) = wrap64 (a - b).
Proof.
  apply wrap64_congr. rewrite Zminus_mod, !wrap64_mod, <- Zminus_mod. reflexivity.
Qed.

(** ** Integer sums *)

Lemma fold_left_Zadd_acc (l : list Z) (acc : Z) :
  fold_left Z.add l acc = (acc + sum_int l)%Z.
Proof.
  unfold sum_int. revert acc.
  induction l as [|x t IH]; intro acc; simpl.
  - lia.
  - rewrite (IH (acc + x)%Z), (IH x). lia.
Qed.

Lemma sum_int_cons (x : Z) (l : list Z) : sum_int (x :: l) = (x + sum_int l)%Z.
Proof.
  unfold sum_int at 1. simpl. apply fold_left_Zadd_acc.
Qed.

Lemma sum_int_app (l1 l2 : list Z) :
  sum_int (l1 ++ l2) = (sum_int l1 + sum_int l2)%Z.
Proof.
  induction l1 as [|x t IH]; simpl app.
  - reflexivity.
  - rewrite !sum_int_cons, IH. lia.
Qed.

Lemma sum_int_firstn_S (p : list Z) (k : nat) :
  (k < length p)%nat ->
  sum_int (firstn (S k) p) = (sum_int (firstn k p) + nth k p 0)%Z.
Proof.
  revert k. induction p as [|x t IH]; intros k Hk; simpl in Hk; [lia|].
  destruct k as [|k].
  - simpl. unfold sum_int. simpl. lia.
  - change (firstn (S (S k)) (x :: t)) with (x :: firstn (S k) t).
    change (firstn (S k) (x :: t)) with (x :: firstn k t).
    rewrite !sum_int_cons, IH by lia. simpl. lia.
Qed.

Lemma Forall_in_int64_nth (p : list Z) (k : nat) :
  Forall in_int64 p -> in_int64 (nth k p 0%Z).
Proof.
  intro H. destruct (Nat.lt_ge_cases k (length p)) as [Hk|Hk].
  - apply (proj1 (Forall_forall _ _) H). now apply nth_In.
  - rewrite nth_overflow by lia. unfold in_int64, int64_min, int64_max. lia.
Qed.

(** ** The closed form of the elements *)


Lemma nth_cumsum_int64_from (s : Z) (t : list Z) (acc : Z) (k : nat) :
  (k < length t)%nat ->
  nth k (map (fun c => wrap64 (c + s)) (cumsum_int64_from acc t)) 0%Z
  = wrap64 (s + (acc + sum_int (firstn (S k) t))).
Proof.
  revert acc k. induction t as [|x t IH]; intros acc k Hk; simpl in Hk; [lia|].
  destruct k as [|k].
  - simpl. rewrite wrap64_add_l. f_equal. unfold sum_int. simpl. lia.
  - change (nth (S k) (map (fun c => wrap64 (c + s)) (cumsum_int64_from acc (x :: t))) 0%Z)
      with (nth k (map (fun c => wrap64 (c + s))
                     (cumsum_int64_from (wrap64 (acc + x)) t)) 0%Z).
    rewrite IH by lia.
    change (firstn (S (S k)) (x :: t)) with (x :: firstn (S k) t).
    rewrite sum_int_cons.
    replace (s + (wrap64 (acc + x) + sum_int (firstn (S k) t)))%Z
      with (wrap64 (acc + x) + (s + sum_int (firstn (S k) t)))%Z by lia.
    rewrite wrap64_add_l. f_equal. lia.
Qed.

Lemma nth_compute_soc_schedule_int64 (p : list Z) (s : Z) (k : nat) :
  (1 <= k <= length p)%nat ->
  nth k (compute_soc_schedule_int64 p s) 0%Z = wrap64 (s + sum_int (firstn k p)).
Proof.
  intros [H1 H2]. destruct k as [|k]; [lia|].
  destruct p as [|x t]; simpl in H2; [lia|].
  unfold compute_soc_schedule_int64.
  change (nth (S k) ([s] ++ map (fun c => wrap64 (c + s)) (cumsum_int64 (x :: t))) 0%Z)
    with (nth k (wrap64 (x + s)
                 :: map (fun c => wrap64 (c + s)) (cumsum_int64_from x t)) 0%Z).
  destruct k as [|k].
  - simpl. f_equal. unfold sum_int. simpl. lia.
  - change (nth (S k) (wrap64 (x + s)
                       :: map (fun c => wrap64 (c + s)) (cumsum_int64_from x t)) 0%Z)
      with (nth k (map (fun c => wrap64 (c + s)) (cumsum_int64_from x t)) 0%Z).
    rewrite nth_cumsum_int64_from by lia.
    change (firstn (S (S k)) (x :: t)) with (x :: firstn (S k) t).
    now rewrite sum_int_cons.
Qed.

(** Every element, index 0 included, up to wrap-around. *)
Lemma wrap64_nth_compute_soc_schedule_int64 (p : list Z) (s : Z) (k : nat) :
  (k <= length p)%nat ->
  wrap64 (nth k (compute_soc_schedule_int64 p s) 0%Z)
  = wrap64 (s + sum_int (firstn k p)).
Proof.
  intro Hk. destruct k as [|k].
  - simpl. f_equal. unfold sum_int. simpl. lia.
  - rewrite nth_compute_soc_schedule_int64 by lia.
    apply wrap64_id, wrap64_range.
Qed.

Lemma nth_compute_soc_schedule_int64_in_range (p : list Z) (s : Z) (k : nat) :
  in_int64 s -> (k <= length p)%nat ->
  in_int64 (nth k (compute_soc_schedule_int64 p s) 0%Z).
Proof.
  intros Hs Hk. destruct k as [|k].
  - exact Hs.
  - rewrite nth_compute_soc_schedule_int64 by lia. apply wrap64_range.
Qed.



(** X1. On 64-bit integers, differencing the SoC schedule gives back the
    power schedule: for every step [k], element [k+1] minus element [k],
    taken in 64-bit arithmetic, is [p[k]], wrap-around or not. *)
Theorem soc_schedule_int64_differences (p : list Z) (s : Z) (k : nat) :
  Forall in_int64 p -> in_int64 s -> (k < length p)%nat ->
  wrap64 (nth (S k) (compute_soc_schedule_int64 p s) 0%Z
          - nth k (compute_soc_schedule_int64 p s) 0%Z)
  = nth k p 0%Z.
Proof.
  intros Hp Hs Hk.
  rewrite <- wrap64_sub.
  rewrite !wrap64_nth_compute_soc_schedule_int64 by lia.
  rewrite wrap64_sub, sum_int_firstn_S by exact Hk.
  replace (s + (sum_int (firstn k p) + nth k p 0) - (s + sum_int (firstn k p)))%Z
    with (nth k p 0%Z) by lia.
  apply wrap64_id, Forall_in_int64_nth, Hp.
Qed.

(** X2. On 64-bit integers, starting [d] higher (with [s + d] still a
    64-bit integer) moves every element of the SoC schedule up by [d] in
    64-bit arithmetic. *)
Theorem soc_schedule_int64_shift (p : list Z) (s d : Z) (k : nat) :
  Forall in_int64 p -> in_int64 s -> in_int64 (s + d) -> (k <= length p)%nat ->
  nth k (compute_soc_schedule_int64 p (s + d)) 0%Z
  = wrap64 (nth k (compute_soc_schedule_int64 p s) 0%Z + d).
Proof.
  intros Hp Hs Hsd Hk. destruct k as [|k].
  - simpl. symmetry. now apply wrap64_id.
  - rewrite !nth_compute_soc_schedule_int64 by lia.
    rewrite wrap64_add_l. f_equal. lia.
Qed.

(** X3. On 64-bit integers, the SoC schedule of two power schedules run one
    after the other is the first SoC schedule followed by the second one
    started from the SoC the first one ends on, which is again a 64-bit
    integer. *)
Theorem soc_schedule_int64_concat (p q : list Z) (s : Z) :
  Forall in_int64 p -> Forall in_int64 q -> in_int64 s ->
  in_int64 (nth (length p) (compute_soc_schedule_int64 p s) 0%Z) /\
  (forall k, (k <= length p)%nat ->
     nth k (compute_soc_schedule_int64 (p ++ q) s) 0%Z
     = nth k (compute_soc_schedule_int64 p s) 0%Z) /\
  (forall k, (k <= length q)%nat ->
     nth (length p + k) (compute_soc_schedule_int64 (p ++ q) s) 0%Z
     = nth k (compute_soc_schedule_int64 q
                (nth (length p) (compute_soc_schedule_int64 p s) 0%Z)) 0%Z).
Proof.
  intros Hp Hq Hs.
  split; [now apply nth_compute_soc_schedule_int64_in_range|].
  assert (Hpre : forall k, (k <= length p)%nat ->
            nth k (compute_soc_schedule_int64 (p ++ q) s) 0%Z
            = nth k (compute_soc_schedule_int64 p s) 0%Z).
  { intros k Hk. destruct k as [|k]; [reflexivity|].
    rewrite !nth_compute_soc_schedule_int64 by (rewrite ?length_app; lia).
    rewrite firstn_app. replace (S k - length p)%nat with 0%nat by lia.
    now rewrite firstn_O, app_nil_r. }
  split; [exact Hpre|].
  intros k Hk. destruct k as [|k].
  - rewrite Nat.add_0_r. simpl (nth 0 _ _). apply Hpre. lia.
  - rewrite (nth_compute_soc_schedule_int64 q) by lia.
    rewrite nth_compute_soc_schedule_int64 by (rewrite length_app; lia).
    rewrite firstn_app. replace (length p + S k - length p)%nat with (S k) by lia.
    rewrite (firstn_all2 (n := length p + S k)) by lia.
    rewrite sum_int_app.
    destruct p as [|x t].
    + simpl. reflexivity.
    + rewrite (nth_compute_soc_schedule_int64 (x :: t)) by (simpl; lia).
      rewrite firstn_all, wrap64_add_l. f_equal. lia.
Qed.

(** ** The integer statements at concrete inputs *)

Lemma small_schedule_in_int64 : Forall in_int64 [10; -5; 3]%Z.
Proof.
  repeat constructor; vm_compute; discriminate.
Qed.

Lemma twenty_in_int64 : in_int64 20.
Proof.
  split; vm_compute; discriminate.
Qed.


Lemma soc_schedule_int64_differences_witness :
  wrap64 (nth 2 (compute_soc_schedule_int64 [10; -5; 3]%Z 20) 0%Z
          - nth 1 (compute_soc_schedule_int64 [10; -5; 3]%Z 20) 0%Z)
  = nth 1 [10; -5; 3]%Z 0%Z.
Proof.
  apply (soc_schedule_int64_differences [10; -5; 3]%Z 20 1
           small_schedule_in_int64 twenty_in_int64).
  simpl. lia.
Defined.

Lemma soc_schedule_int64_shift_witness :
  nth 3 (compute_soc_schedule_int64 [10; -5; 3]%Z (20 + 7)) 0%Z
  = wrap64 (nth 3 (compute_soc_schedule_int64 [10; -5; 3]%Z 20) 0%Z + 7).
Proof.
  apply (soc_schedule_int64_shift [10; -5; 3]%Z 20 7 3
           small_schedule_in_int64 twenty_in_int64).
  - split; vm_compute; discriminate.
  - simpl. lia.
Defined.

Lemma soc_schedule_int64_concat_witness :
  nth (length [10; -5]%Z + 1) (compute_soc_schedule_int64 ([10; -5] ++ [3])%Z 20) 0%Z
  = nth 1 (compute_soc_schedule_int64 [3]%Z
             (nth (length [10; -5]%Z) (compute_soc_schedule_int64 [10; -5]%Z 20) 0%Z))
        0%Z.
Proof.
  apply (proj2 (proj2 (soc_schedule_int64_concat [10; -5]%Z [3]%Z 20
                         ltac:(repeat constructor; vm_compute; discriminate)
                         ltac:(repeat constructor; vm_compute; discriminate)
                         twenty_in_int64)) 1%nat).
  simpl. lia.
Defined.
